(** * daily-commit-summarizer: the collector, the chunker and the summarization
      pipeline of [scripts/daily-summary.ts]

    A shallow embedding of the script.  Conventions:

    - a JavaScript string is a [string]; one character stands for one code
      unit, so [String.length] is the script's [.length].  Text of the script
      outside ASCII is carried as its bytes; white space is the ASCII part of
      what [trim] removes (tab, line feed, vertical tab, form feed, carriage
      return, space), and the line terminators are line feed and carriage
      return;
    - JavaScript numbers that hold sizes, indices and limits are in [Z]; the
      two numeric settings are the integers [parseInt] returns, and the
      chunker is also given at a limit that is [NaN], which [parseInt]
      returns for a text without digits ([chunkBySizeN]);
    - a [Map] or [Set] of the script is an association list or a list in
      insertion order, which is the order the script iterates them in;
    - the version-control tool, the generation service, the webhook and the
      clock are collaborators: their answers are fields of a record the
      pipeline is run against, every command of the version-control tool is
      taken to end and print its output, and every request to the service or
      the webhook is logged in the [World];
    - a loop of the script that may run forever is modelled with fuel, and
      the result [None] stands for a run that never returns. *)

From Stdlib Require Import ZArith Lia List Bool Ascii String.
From Stdlib Require Import Sorting.Sorted Sorting.Permutation Sorting.Mergesort Orders.
From Stdlib Require Import Numbers.DecimalString.
From Stdlib Require OrdersEx.
Import ListNotations.

Local Open Scope string_scope.
Local Open Scope Z_scope.
Local Open Scope list_scope.

(** String concatenation, the [+] of the script on strings. *)
Infix "+++" := String.append (right associativity, at level 60).

(** ** JavaScript strings *)

Module Js.

Definition LF : ascii := ascii_of_nat 10.
Definition CR : ascii := ascii_of_nat 13.

Definition nl : string := String LF EmptyString.
Definition nlnl : string := String LF (String LF EmptyString).

(** [Boolean(s)]: a string is falsy exactly when it is empty. *)
Definition truthy (s : string) : bool :=
  match s with
  | EmptyString => false
  | String _ _ => true
  end.

(** [s.length] *)
Definition len (s : string) : Z := Z.of_nat (String.length s).

Definition isWhite (c : ascii) : bool :=
  let n := nat_of_ascii c in
  ((9 <=? n)%nat && (n <=? 13)%nat) || (n =? 32)%nat.

(** Line terminators of the regular-expression engine ([^], [$] and [.]). *)
Definition isLineTerminator (c : ascii) : bool :=
  Ascii.eqb c LF || Ascii.eqb c CR.

Fixpoint trimStart (s : string) : string :=
  match s with
  | EmptyString => EmptyString
  | String c s' => if isWhite c then trimStart s' else s
  end.

Fixpoint trimEnd (s : string) : string :=
  match s with
  | EmptyString => EmptyString
  | String c s' =>
      match trimEnd s' with
      | EmptyString => if isWhite c then EmptyString else String c EmptyString
      | r => String c r
      end
  end.

(** [s.trim()] *)
Definition trim (s : string) : string := trimEnd (trimStart s).

(** [s.split(sep)] for a separator of one character; [cur] is the piece
    being read.  The result always has one piece more than [s] has
    separators, so the empty string splits into one empty piece. *)
Fixpoint splitFrom (sep : ascii) (cur : string) (s : string) : list string :=
  match s with
  | EmptyString => [cur]
  | String c s' =>
      if Ascii.eqb c sep then cur :: splitFrom sep EmptyString s'
      else splitFrom sep (cur +++ String c EmptyString) s'
  end.

Definition split (sep : ascii) (s : string) : list string :=
  splitFrom sep EmptyString s.

(** Relative index of [slice]: negative counts from the end, and the
    result is clamped to [0 .. n]. *)
Definition relIndex (n i : Z) : Z :=
  if i <? 0 then Z.max (n + i) 0 else Z.min i n.

(** [s.slice(i, j)] *)
Definition slice (s : string) (i j : Z) : string :=
  let from := relIndex (len s) i in
  let to := relIndex (len s) j in
  substring (Z.to_nat from) (Z.to_nat (Z.max (to - from) 0)) s.

(** [xs.slice(i)] on an array *)
Definition sliceFrom {A : Type} (xs : list A) (i : Z) : list A :=
  skipn (Z.to_nat (relIndex (Z.of_nat (List.length xs)) i)) xs.

(** [xs.join(sep)] is [String.concat sep xs]. *)
Definition join (sep : string) (xs : list string) : string :=
  String.concat sep xs.

(** Decimal text of an integer, as template literals print it. *)
Definition ofZ (z : Z) : string := NilZero.string_of_int (Z.to_int z).

(** [s.split("\n").map(trim).filter(Boolean)] *)
Definition lines (s : string) : list string :=
  filter truthy (map trim (split LF s)).

End Js.

(** ** The chunker *)

(** [split(/^diff --git.*$/m)]: the scan drops every line that starts with
    the marker, up to but not including its line terminator, and returns the
    text between the dropped lines.  [inMarker] holds while a marker line is
    being dropped, [atStart] when the position is the start of a line, and
    [cur] is the piece being read. *)
Definition marker : string := "diff --git".

Fixpoint splitMarkersFrom (inMarker atStart : bool) (cur : string) (s : string)
  : list string :=
  match s with
  | EmptyString => [cur]
  | String c s' =>
      if inMarker then
        if Js.isLineTerminator c
        then splitMarkersFrom false true (String c EmptyString) s'
        else splitMarkersFrom true false cur s'
      else if atStart && String.prefix marker s
      then cur :: splitMarkersFrom true false EmptyString s'
      else splitMarkersFrom false (Js.isLineTerminator c)
             (cur +++ String c EmptyString) s'
  end.

Definition splitMarkers (patch : string) : list string :=
  splitMarkersFrom false true EmptyString patch.

Definition splitPatchByFile (patch : string) : list string :=
  if Js.truthy patch
  then filter Js.truthy (map Js.trim (splitMarkers patch))
  else [].

(** The inner loop of [chunkBySize]:
    [for (let i = 0; i < p.length; i += limit) out.push(p.slice(i, i + limit))].
    It runs forever when [limit <= 0] and [p] is not empty. *)
Fixpoint sliceLoop (fuel : nat) (p : string) (limit i : Z) (out : list string)
  : option (list string) :=
  match fuel with
  | O => None
  | S fuel' =>
      if i <? Js.len p
      then sliceLoop fuel' p limit (i + limit) (out ++ [Js.slice p i (i + limit)])
      else Some out
  end.

(** One turn more than [p] has characters is enough whenever the loop ends
    at all ([sliceLoop_fuel] below). *)
Definition forcedSlices (p : string) (limit : Z) (out : list string)
  : option (list string) :=
  sliceLoop (S (String.length p)) p limit 0 out.

(** The [for (const p of parts)] loop, on the pair [(out, buf)]. *)
Fixpoint chunkLoop (limit : Z) (parts : list string) (out : list string)
  (buf : string) : option (list string * string) :=
  match parts with
  | [] => Some (out, buf)
  | p :: rest =>
      let candidate := if Js.truthy buf then buf +++ Js.nlnl +++ p else p in
      if limit <? Js.len candidate then
        let out1 := if Js.truthy buf then out ++ [buf] else out in
        if limit <? Js.len p then
          match forcedSlices p limit out1 with
          | None => None
          | Some out2 => chunkLoop limit rest out2 EmptyString
          end
        else chunkLoop limit rest out1 p
      else chunkLoop limit rest out candidate
  end.

Definition chunkBySize (parts : list string) (limit : Z) : option (list string) :=
  match chunkLoop limit parts [] EmptyString with
  | None => None
  | Some (out, buf) => Some (if Js.truthy buf then out ++ [buf] else out)
  end.

(** *** The chunker at any number

    [parseInt] returns an integer or [NaN], and nothing checks the setting
    before it reaches [chunkBySize].  Every comparison with [NaN] is false. *)
Inductive JsNumber : Type :=
| NaN
| Int (z : Z).

(** [a > limit] *)
Definition gtNumber (a : Z) (limit : JsNumber) : bool :=
  match limit with
  | NaN => false
  | Int z => z <? a
  end.

(** [a <= limit] *)
Definition leNumber (a : Z) (limit : JsNumber) : bool :=
  match limit with
  | NaN => false
  | Int z => a <=? z
  end.

(** The slicing loop at any number.  At [NaN] the first test [0 < p.length]
    is the only one that can hold: [p.slice(0, NaN)] is the empty string,
    and [i += NaN] ends the loop. *)
Definition forcedSlicesN (p : string) (limit : JsNumber) (out : list string)
  : option (list string) :=
  match limit with
  | Int z => forcedSlices p z out
  | NaN => Some (if 0 <? Js.len p then out ++ [EmptyString] else out)
  end.

Fixpoint chunkLoopN (limit : JsNumber) (parts : list string) (out : list string)
  (buf : string) : option (list string * string) :=
  match parts with
  | [] => Some (out, buf)
  | p :: rest =>
      let candidate := if Js.truthy buf then buf +++ Js.nlnl +++ p else p in
      if gtNumber (Js.len candidate) limit then
        let out1 := if Js.truthy buf then out ++ [buf] else out in
        if gtNumber (Js.len p) limit then
          match forcedSlicesN p limit out1 with
          | None => None
          | Some out2 => chunkLoopN limit rest out2 EmptyString
          end
        else chunkLoopN limit rest out1 p
      else chunkLoopN limit rest out candidate
  end.

Definition chunkBySizeN (parts : list string) (limit : JsNumber)
  : option (list string) :=
  match chunkLoopN limit parts [] EmptyString with
  | None => None
  | Some (out, buf) => Some (if Js.truthy buf then out ++ [buf] else out)
  end.

(** ** Maps and sets of the script

    A [Map] keeps its keys in insertion order, and [set] on a key already
    present replaces the value in place; a [Set] keeps its members in
    insertion order. *)

Module JsMap.

Definition t (V : Type) : Type := list (string * V).

Fixpoint get {V : Type} (m : t V) (k : string) : option V :=
  match m with
  | [] => None
  | (k', v) :: m' => if String.eqb k' k then Some v else get m' k
  end.

Definition has {V : Type} (m : t V) (k : string) : bool :=
  match get m k with
  | Some _ => true
  | None => false
  end.

Fixpoint set {V : Type} (m : t V) (k : string) (v : V) : t V :=
  match m with
  | [] => [(k, v)]
  | (k', v') :: m' =>
      if String.eqb k' k then (k', v) :: m' else (k', v') :: set m' k v
  end.

End JsMap.

Module JsSet.

Definition t : Type := list string.

Definition has (s : t) (x : string) : bool := existsb (String.eqb x) s.

Definition add (s : t) (x : string) : t := if has s x then s else s ++ [x].

End JsSet.

(** [Array.prototype.sort()] without a comparator orders strings by their
    code units. *)
Module StringOrder <: TotalLeBool.
Definition t := string.
Definition leb (a b : string) : bool := String.leb a b.
Lemma leb_total (a b : string) : leb a b = true \/ leb b a = true.
Proof. apply String.leb_total. Qed.
End StringOrder.

Module StringSort := Sort StringOrder.

(** ** Configuration and collaborators *)

(** The settings the script reads once at start.  [DAYS_BACK_text] is
    [process.env.DAYS_BACK || "1"] and [DAYS_BACK] its [parseInt];
    [repoFullPath] is [REPO_PATH] resolved against the working directory, and
    [repoPathExists] and [repoPathHasGit] are what [existsSync] answers for
    it and for its [.git]. *)
Record Config : Type := {
  OPENAI_API_KEY : string;
  LARK_WEBHOOK_URL : string;
  REPO : string;
  REPO_PATH : string;
  repoFullPath : string;
  repoPathExists : bool;
  repoPathHasGit : bool;
  PER_BRANCH_LIMIT : Z;
  DIFF_CHUNK_MAX_CHARS : Z;
  DAYS_BACK : Z;
  DAYS_BACK_text : string
}.

(** What the version-control tool prints for each command of the script. *)
Record Git : Type := {
  forEachRef : string;                    (* remote branches, [origin/HEAD] removed *)
  logBranch : string -> string;           (* [git log <rb> --no-merges ... --reverse] *)
  logAll : string;                        (* [git log --no-merges ... --all --reverse] *)
  showSubject : string -> string;         (* [git show -s --format=%s <sha>] *)
  showAuthor : string -> string;          (* [git show -s --format=%an <sha>] *)
  revListParents : string -> string;      (* [git rev-list --parents -n 1 <sha>] *)
  emptyTree : string;                     (* [git hash-object -t tree /dev/null] *)
  diffOutput : string -> string -> string (* [git diff ... <base> <sha> -- . <excludes>] *)
}.

(** [sh]: the standard output of the command, trimmed.  The command is one
    that ended with its output within the buffer of [execSync]; a command
    that fails or prints more makes [sh] throw, and a run where that happens
    ends before the step that called it returns. *)
Definition sh (stdout : string) : string := Js.trim stdout.

(** ** The collector *)

Record CommitMeta : Type := {
  sha : string;
  title : string;
  author : string;
  url : string;
  branches : list string
}.

Section Collector.

Variable cfg : Config.
Variable git : Git.

Definition remoteBranches : list string := Js.lines (sh (forEachRef git)).

(** The in-window listing of one branch, oldest first. *)
Definition branchListing (rb : string) : list string :=
  Js.lines (sh (logBranch git rb)).

(** [list.slice(-PER_BRANCH_LIMIT)] *)
Definition cappedListing (rb : string) : list string :=
  Js.sliceFrom (branchListing rb) (- PER_BRANCH_LIMIT cfg).

Definition branchToCommitsOf (rbs : list string) : JsMap.t (list string) :=
  fold_left (fun m rb => JsMap.set m rb (cappedListing rb)) rbs [].

Definition branchToCommits : JsMap.t (list string) :=
  branchToCommitsOf remoteBranches.

(** The body of the inner loop: create the set when the hash is new, then
    add the branch to it. *)
Definition addBranch (m : JsMap.t JsSet.t) (rb sha : string) : JsMap.t JsSet.t :=
  let m1 := if JsMap.has m sha then m else JsMap.set m sha [] in
  match JsMap.get m1 sha with
  | Some s => JsMap.set m1 sha (JsSet.add s rb)
  | None => m1
  end.

Definition shaToBranchesOf (b2c : JsMap.t (list string)) : JsMap.t JsSet.t :=
  fold_left
    (fun m (entry : string * list string) =>
       fold_left (fun m' sha => addBranch m' (fst entry) sha) (snd entry) m)
    b2c [].

Definition shaToBranches : JsMap.t JsSet.t := shaToBranchesOf branchToCommits.

Definition allShasOrdered : list string := Js.lines (sh (logAll git)).

(** The [filter] callback with its [seen] set threaded through. *)
Fixpoint filterSeen (index : JsMap.t JsSet.t) (seen : JsSet.t)
  (shas : list string) : list string :=
  match shas with
  | [] => []
  | s :: rest =>
      if JsSet.has seen s then filterSeen index seen rest
      else if negb (JsMap.has index s) then filterSeen index seen rest
      else s :: filterSeen index (JsSet.add seen s) rest
  end.

Definition commitShas : list string := filterSeen shaToBranches [] allShasOrdered.

Definition serverUrl : string := "https://github.com".

(** [shaToBranches.get(sha) || []] *)
Definition branchesOf (index : JsMap.t JsSet.t) (s : string) : JsSet.t :=
  match JsMap.get index s with
  | Some bs => bs
  | None => []
  end.

Definition metaOf (index : JsMap.t JsSet.t) (s : string) : CommitMeta :=
  {| sha := s;
     title := sh (showSubject git s);
     author := sh (showAuthor git s);
     url := if Js.truthy (REPO cfg)
            then serverUrl +++ "/" +++ REPO cfg +++ "/commit/" +++ s
            else serverUrl +++ "/commit/" +++ s;
     branches := StringSort.sort (branchesOf index s) |}.

Definition commitMetas : list CommitMeta := map (metaOf shaToBranches) commitShas.

(** *** The diff of one commit *)

(** [line.split(" ").filter(Boolean)[1]] *)
Definition getParentSha (s : string) : option string :=
  nth_error (filter Js.truthy (Js.split " "%char (sh (revListParents git s)))) 1.

Definition getDiff (s : string) : string :=
  let base := match getParentSha s with
              | Some parent => parent
              | None => sh (emptyTree git)
              end in
  sh (diffOutput git base s).

End Collector.

(** ** The generation service and the webhook *)

(** What comes back for one HTTPS request of [chat]: a transport error, or a
    status code with the response body. *)
Inductive NetReply : Type :=
| NetError (e : string)
| Http (status : Z) (data : string).

(** [JSON.parse(data)?.choices?.[0]?.message?.content]: the evaluation
    throws, or yields nothing, or yields a text. *)
Inductive JsonContent : Type :=
| JsonThrows (e : string)
| JsonText (c : option string).

(** A settled promise of [chat]; a rejection carries [String(e)]. *)
Inductive Outcome : Type :=
| Resolved (text : string)
| Rejected (e : string).

Record Services : Type := {
  chatReply : nat -> string -> NetReply;  (* reply to request number n, by prompt *)
  jsonOf : string -> JsonContent;
  larkReply : string -> option string;    (* [None]: delivered; [Some e]: the request failed *)
  todayLabel : string
}.

(** Everything the run has sent or printed so far. *)
Record World : Type := {
  chatLog : list string;   (* prompts of the generation requests *)
  larkLog : list string;   (* texts posted to the webhook *)
  console : list string    (* lines printed *)
}.

Definition emptyWorld : World := {| chatLog := []; larkLog := []; console := [] |}.

(** How the process ends: the event loop drains, or [process.exit(code)]. *)
Inductive Termination : Type :=
| Finished
| Exit (code : Z).

(** The exit status of the process: 0 when the event loop drains. *)
Definition exitStatus (t : Termination) : Z :=
  match t with
  | Finished => 0
  | Exit code => code
  end.

(** Computations over the world; [None] is a run that never returns. *)
Definition M (A : Type) : Type := World -> option (A * World).

Definition ret {A : Type} (a : A) : M A := fun w => Some (a, w).

Definition bind {A B : Type} (m : M A) (k : A -> M B) : M B :=
  fun w => match m w with
           | None => None
           | Some (a, w') => k a w'
           end.

Notation "x <- m ;; k" := (bind m (fun x => k))
  (at level 61, m at next level, right associativity).
Notation "m ;;; k" := (bind m (fun _ => k))
  (at level 61, right associativity).

Definition liftOption {A : Type} (o : option A) : M A :=
  fun w => match o with
           | None => None
           | Some a => Some (a, w)
           end.

Definition consoleLog (line : string) : M unit :=
  fun w => Some (tt, {| chatLog := chatLog w; larkLog := larkLog w;
                        console := console w ++ [line] |}).

Fixpoint repeatString (s : string) (n : nat) : string :=
  match n with
  | O => EmptyString
  | S n' => s +++ repeatString s n'
  end.

Record Item : Type := { meta : CommitMeta; summary : string }.

Section Pipeline.

Variable cfg : Config.
Variable git : Git.
Variable svc : Services.

(** The response handler of [chat]. *)
Definition chatOutcome (reply : NetReply) : Outcome :=
  match reply with
  | NetError e => Rejected e
  | Http status data =>
      if (200 <=? status) && (status <? 300) then
        match jsonOf svc data with
        | JsonThrows e => Rejected e
        | JsonText None => Resolved EmptyString
        | JsonText (Some c) => Resolved (Js.trim c)
        end
      else Rejected ("Error: OpenAI HTTP " +++ Js.ofZ status +++ ": " +++ data)
  end.

Definition chat (prompt : string) : M Outcome :=
  fun w =>
    Some (chatOutcome (chatReply svc (List.length (chatLog w)) prompt),
          {| chatLog := chatLog w ++ [prompt]; larkLog := larkLog w;
             console := console w |}).

(** *** Prompts *)

Definition commitChunkPrompt (m : CommitMeta) (partIdx total : Z) (patch : string)
  : string :=
  "你是一名资深工程师与发布经理。以下是提交 " +++ Js.slice (sha m) 0 7 +++ "（" +++ title m
  +++ "）的 diff 片段（第 " +++ Js.ofZ partIdx +++ "/" +++ Js.ofZ total
  +++ " 段），请用中文输出结构化摘要：

提交信息：
- SHA: " +++ sha m +++ "
- 标题: " +++ title m +++ "
- 作者: " +++ author m +++ "
- 分支: " +++ Js.join ", " (branches m) +++ "
- 链接: " +++ url m +++ "

要求输出：
1) 变更要点（面向工程师与产品）：列出此片段涉及的主要改动与意图
2) 影响范围：模块/接口/关键文件
3) 风险&回滚点
4) 测试建议
注意：仅基于当前片段，不要臆测；不要贴长代码；如果只是格式化/重命名也请明确指出。

=== DIFF PART BEGIN ===
" +++ patch +++ "
=== DIFF PART END ===".

(** [parts.map((p, i) => ...)], counting from [i]. *)
Fixpoint numberedParts (i : Z) (parts : list string) : list string :=
  match parts with
  | [] => []
  | p :: rest =>
      ("【片段" +++ Js.ofZ (i + 1) +++ "】" +++ Js.nl +++ p) :: numberedParts (i + 1) rest
  end.

Definition commitMergePrompt (m : CommitMeta) (parts : list string) : string :=
  let joined := Js.join Js.nlnl (numberedParts 0 parts) in
  "下面是提交 " +++ Js.slice (sha m) 0 7
  +++ " 的各片段小结，请合并为**单条提交**的最终摘要（中文），输出以下小节：
- 变更概述（不超过5条要点）
- 影响范围（模块/接口/配置）
- 风险与回滚点
- 测试建议
- 面向用户的可见影响（如有）

请避免重复、合并同类项，标注“可能不完整”当某些片段缺失或被截断。

=== 片段小结集合 BEGIN ===
" +++ joined +++ "
=== 片段小结集合 END ===".

Definition dailySeparator : string := Js.nlnl +++ "---" +++ Js.nlnl.

Definition dailyMergePrompt (dateLabel : string) (items : list Item) (repo : string)
  : string :=
  let body :=
    Js.join dailySeparator
      (map (fun it =>
              "[" +++ Js.slice (sha (meta it)) 0 7 +++ "] " +++ title (meta it)
              +++ " — " +++ author (meta it) +++ " — "
              +++ Js.join ", " (branches (meta it)) +++ Js.nl +++ summary it)
           items) in
  let periodText :=
    if DAYS_BACK cfg =? 1 then "今日" else "最近" +++ DAYS_BACK_text cfg +++ "天" in
  "请将以下“各提交摘要”整合成**" +++ periodText +++ "开发变更日报（中文）**，输出结构如下：
# " +++ dateLabel +++ " " +++ periodText +++ "开发变更日报（" +++ repo +++ ")
1. " +++ periodText +++ "概览（不超过5条）
2. **按分支**的关键改动清单（每条含模块/影响、是否潜在破坏性）
3. 跨分支风险与回滚策略（如同一提交在多个分支、存在 cherry-pick/divergence）
4. 建议测试与验证清单
5. 其他备注（如重构/依赖升级/仅格式化）

=== 提交摘要 BEGIN ===
" +++ body +++ "
=== 提交摘要 END ===".

(** *** The webhook *)

(** [postToLark]: the result is [Some e] when the promise is rejected. *)
Definition postToLark (text : string) : M (option string) :=
  if Js.truthy (LARK_WEBHOOK_URL cfg) then
    fun w =>
      Some (larkReply svc text,
            {| chatLog := chatLog w; larkLog := larkLog w ++ [text];
               console := console w |})
  else
    consoleLog ("LARK_WEBHOOK_URL 未配置，以下为最终日报文本：" +++ Js.nlnl +++ text) ;;;
    ret None.

(** *** The main flow *)

Definition emptyDiffSummary : string :=
  "（无有效业务改动或改动已被过滤，例如 lockfile/构建产物/二进制，或空提交）".

(** The text pushed to [partSummaries] for chunk number [i] (from 0). *)
Definition partSummary (i : Z) (r : Outcome) : string :=
  match r with
  | Resolved sum =>
      if Js.truthy sum then sum else "（片段" +++ Js.ofZ (i + 1) +++ "摘要为空）"
  | Rejected e => "（片段" +++ Js.ofZ (i + 1) +++ "调用失败：" +++ e +++ "）"
  end.

(** The loop over [chunks], from index [i], with [partSummaries] in [acc]. *)
Fixpoint summarizeChunks (m : CommitMeta) (total : Z) (i : Z)
  (chunks : list string) (acc : list string) : M (list string) :=
  match chunks with
  | [] => ret acc
  | c :: rest =>
      r <- chat (commitChunkPrompt m (i + 1) total c) ;;
      summarizeChunks m total (i + 1) rest (acc ++ [partSummary i r])
  end.

(** One turn of [for (const meta of commitMetas)]. *)
Definition processCommit (perCommitFinal : list Item) (m : CommitMeta)
  : M (list Item) :=
  let fullPatch := getDiff git (sha m) in
  if negb (Js.truthy fullPatch) || negb (Js.truthy (Js.trim fullPatch)) then
    ret (perCommitFinal ++ [{| meta := m; summary := emptyDiffSummary |}])
  else
    let fileParts := splitPatchByFile fullPatch in
    chunks <- liftOption (chunkBySize fileParts (DIFF_CHUNK_MAX_CHARS cfg)) ;;
    partSummaries <-
      summarizeChunks m (Z.of_nat (List.length chunks)) 0 chunks [] ;;
    r <- chat (commitMergePrompt m partSummaries) ;;
    let merged := match r with
                  | Resolved text => text
                  | Rejected _ => Js.join Js.nlnl partSummaries
                  end in
    ret (perCommitFinal ++ [{| meta := m; summary := merged |}]).

Fixpoint processCommits (perCommitFinal : list Item) (ms : list CommitMeta)
  : M (list Item) :=
  match ms with
  | [] => ret perCommitFinal
  | m :: rest =>
      acc <- processCommit perCommitFinal m ;;
      processCommits acc rest
  end.

Definition dailyFailureNotice : string :=
  "（当日汇总失败，以下为逐提交原始小结拼接）".

Definition dailyFallback (items : list Item) : string :=
  dailyFailureNotice +++ Js.nlnl +++
  Js.join dailySeparator
    (map (fun it =>
            "[" +++ Js.slice (sha (meta it)) 0 7 +++ "] " +++ title (meta it)
            +++ " — " +++ Js.join ", " (branches (meta it)) +++ Js.nl +++ summary it)
         items).

Definition notificationKeyword : string := "【每日代码提交摘要】".

Definition finalMessageOf (daily : string) : string :=
  notificationKeyword +++ Js.nlnl +++ daily.

(** The daily merge: the generated digest, or the fallback listing. *)
Definition dailyOf (items : list Item) (r : Outcome) : string :=
  match r with
  | Resolved text => text
  | Rejected _ => dailyFallback items
  end.

(** The asynchronous main function with its [.catch] handler. *)
Definition mainFlow (metas : list CommitMeta) : M Termination :=
  perCommitFinal <- processCommits [] metas ;;
  r <- chat (dailyMergePrompt (todayLabel svc) perCommitFinal
               (if Js.truthy (REPO cfg) then REPO cfg else "repository")) ;;
  let finalMessage := finalMessageOf (dailyOf perCommitFinal r) in
  consoleLog (Js.nl +++ repeatString "=" 50) ;;;
  consoleLog "📋 生成的日报内容：" ;;;
  consoleLog (repeatString "=" 50) ;;;
  consoleLog finalMessage ;;;
  consoleLog (repeatString "=" 50) ;;;
  posted <- postToLark finalMessage ;;
  match posted with
  | None => consoleLog "✅ 已发送飞书日报。" ;;; ret Finished
  | Some e => consoleLog e ;;; ret (Exit 1)
  end.

(** The script from its start checks on.  The progress lines that the
    collection phase prints are not part of [console]. *)
Definition program : M Termination :=
  if negb (Js.truthy (OPENAI_API_KEY cfg)) then
    consoleLog "Missing OPENAI_API_KEY" ;;; ret (Exit 1)
  else if negb (String.eqb (REPO_PATH cfg) ".") && negb (repoPathExists cfg) then
    consoleLog ("❌ 仓库路径不存在: " +++ repoFullPath cfg) ;;; ret (Exit 1)
  else if negb (String.eqb (REPO_PATH cfg) ".") && negb (repoPathHasGit cfg) then
    consoleLog ("❌ 指定路径不是Git仓库: " +++ repoFullPath cfg) ;;; ret (Exit 1)
  else
    match commitShas cfg git with
    | [] =>
        consoleLog ("📭 最近" +++ Js.ofZ (DAYS_BACK cfg) +++ "天所有分支均无有效提交。结束。") ;;;
        ret (Exit 0)
    | _ :: _ => mainFlow (commitMetas cfg git)
    end.

End Pipeline.

(** ** The environment file *)

(** [process.env] is a map from names to texts.  Reading a name that it
    does not hold falls through to [Object.prototype], whose members are all
    truthy. *)
Definition inheritedNames : list string :=
  ["constructor"; "__defineGetter__"; "__defineSetter__"; "hasOwnProperty";
   "__lookupGetter__"; "__lookupSetter__"; "isPrototypeOf";
   "propertyIsEnumerable"; "toString"; "valueOf"; "__proto__";
   "toLocaleString"].

(** [process.env[key]] is truthy: the name is set to a text that is not
    empty, or it is not set and names an inherited member. *)
Definition envTruthy (env : JsMap.t string) (key : string) : bool :=
  match JsMap.get env key with
  | Some v => Js.truthy v
  | None => existsb (String.eqb key) inheritedNames
  end.

(** The callback of [envContent.split('\n').forEach]. *)
Definition loadEnvLine (env : JsMap.t string) (line : string) : JsMap.t string :=
  let trimmed := Js.trim line in
  if Js.truthy trimmed && negb (String.prefix "#" trimmed) then
    match Js.split "="%char trimmed with
    | key :: valueParts =>
        if Js.truthy key && (0 <? Z.of_nat (List.length valueParts)) then
          let value := Js.trim (Js.join "=" valueParts) in
          if negb (envTruthy env key) then JsMap.set env key value else env
        else env
    | [] => env
    end
  else env.

(** [loadEnv]: [file] is the content of [.env], or [None] when reading it
    throws; the result is the environment and the line printed. *)
Definition loadEnv (file : option string) (env : JsMap.t string)
  : JsMap.t string * string :=
  match file with
  | Some envContent =>
      (fold_left loadEnvLine (Js.split Js.LF envContent) env,
       "✅ 已加载 .env 文件")
  | None => (env, "ℹ️  未找到 .env 文件，使用系统环境变量")
  end.

(** ** Notions used to state the properties *)

(** A string that is empty or holds white space only. *)
Fixpoint blank (s : string) : bool :=
  match s with
  | EmptyString => true
  | String c s' => Js.isWhite c && blank s'
  end.

(** No character of [s] is [c]. *)
Fixpoint noChar (c : ascii) (s : string) : bool :=
  match s with
  | EmptyString => true
  | String x s' => negb (Ascii.eqb x c) && noChar c s'
  end.

(** Every character of [s] is an ASCII character, so that the white space
    of [s] is the white space [Js.trim] knows. *)
Fixpoint asciiOnly (s : string) : bool :=
  match s with
  | EmptyString => true
  | String c s' => (nat_of_ascii c <? 128)%nat && asciiOnly s'
  end.

(** A text that [trim] leaves as it is. *)
Definition Trimmed (s : string) : Prop := Js.trim s = s.

(** The number of generation requests the main loop makes for one commit:
    none for a blank diff, else one per chunk and one to merge them. *)
Definition requestsOf (cfg : Config) (git : Git) (m : CommitMeta) : nat :=
  if blank (getDiff git (sha m)) then 0%nat
  else
    match chunkBySize (splitPatchByFile (getDiff git (sha m)))
            (DIFF_CHUNK_MAX_CHARS cfg) with
    | Some chunks => S (List.length chunks)
    | None => 0%nat
    end.

(** The start of [s] up to its first line terminator. *)
Fixpoint lineHead (s : string) : string :=
  match s with
  | EmptyString => EmptyString
  | String c s' => if Js.isLineTerminator c then EmptyString else String c (lineHead s')
  end.

Fixpoint noLineTerminator (s : string) : bool :=
  match s with
  | EmptyString => true
  | String c s' => negb (Js.isLineTerminator c) && noLineTerminator s'
  end.

(** A line that the split drops: it starts with the marker and runs within
    one line. *)
Definition MarkerLine (m : string) : Prop :=
  String.prefix marker m = true /\ noLineTerminator m = true.

(** A piece that follows a dropped line: empty, or starting with the line
    terminator that ended the dropped line. *)
Definition FollowsLine (x : string) : Prop :=
  x = EmptyString \/ exists c r, x = String c r /\ Js.isLineTerminator c = true.

(** A piece that a dropped line can follow: empty, or ending with a line
    terminator, so that the dropped line starts a line. *)
Fixpoint endsLine (x : string) : bool :=
  match x with
  | EmptyString => true
  | String c EmptyString => Js.isLineTerminator c
  | String _ r => endsLine r
  end.

(** The start checks of the script pass. *)
Definition startChecksPass (cfg : Config) : Prop :=
  Js.truthy (OPENAI_API_KEY cfg) = true /\
  (REPO_PATH cfg = "." \/ (repoPathExists cfg = true /\ repoPathHasGit cfg = true)).

(** A chunk within the size limit. *)
Definition fits (limit : Z) (c : string) : Prop := Js.len c <= limit.

(** From [w] to [w'] nothing went to the webhook or to the console. *)
Definition quiet (w w' : World) : Prop :=
  larkLog w' = larkLog w /\ console w' = console w.

(** [needle] occurs in [hay]. *)
Definition Contains (needle hay : string) : Prop :=
  exists pre post, hay = pre +++ needle +++ post.

(** The first [n] characters of a string, and the rest. *)
Fixpoint takeStr (n : nat) (s : string) : string :=
  match n, s with
  | S n', String c s' => String c (takeStr n' s')
  | _, _ => EmptyString
  end.

Fixpoint dropStr (n : nat) (s : string) : string :=
  match n, s with
  | S n', String _ s' => dropStr n' s'
  | _, _ => s
  end.

(** The consecutive windows of [n] characters of a text, the last one with
    what is left; [fuel] bounds their number. *)
Fixpoint windows (fuel n : nat) (s : string) : list string :=
  match fuel with
  | O => []
  | S fuel' =>
      match s with
      | EmptyString => []
      | String _ _ => takeStr n s :: windows fuel' n (dropStr n s)
      end
  end.

(** The slices of a forced split: [p.slice(0, limit)], [p.slice(limit,
    2 * limit)], and so on to the end of [p]. *)
Definition limitSlices (limit : Z) (p : string) : list string :=
  windows (String.length p) (Z.to_nat limit) p.

(** The layout of the chunks over the sequence of units: a chunk is either
    a run of consecutive units that each fit the limit, joined by a blank
    line, or one of the slices of a unit that does not fit, and these are
    its consecutive windows of [limit] characters. *)
Inductive Packed (limit : Z) : list string -> list string -> Prop :=
| Packed_nil : Packed limit [] []
| Packed_group (us rest chunks : list string) :
    us <> [] ->
    Forall (fun u => Js.len u <= limit) us ->
    Packed limit rest chunks ->
    Packed limit (us ++ rest) (Js.join Js.nlnl us :: chunks)
| Packed_forced (p : string) (rest chunks : list string) :
    limit < Js.len p ->
    Packed limit rest chunks ->
    Packed limit (p :: rest) (limitSlices limit p ++ chunks).

(** The marker lines that [splitMarkers] drops, in order; the scan is the
    one of [splitMarkersFrom], keeping what that one drops. *)
Fixpoint markerLinesFrom (inMarker atStart : bool) (cur : string) (s : string)
  : list string :=
  match s with
  | EmptyString => if inMarker then [cur] else []
  | String c s' =>
      if inMarker then
        if Js.isLineTerminator c
        then cur :: markerLinesFrom false true EmptyString s'
        else markerLinesFrom true false (cur +++ String c EmptyString) s'
      else if atStart && String.prefix marker s
      then markerLinesFrom true false (String c EmptyString) s'
      else markerLinesFrom false (Js.isLineTerminator c) EmptyString s'
  end.

Definition markerLines (patch : string) : list string :=
  markerLinesFrom false true EmptyString patch.

(** [x0 m0 x1 m1 ... xn]: the pieces with the marker lines put back. *)
Fixpoint interleave (pieces markers : list string) : string :=
  match pieces, markers with
  | x :: pieces', m :: markers' => x +++ m +++ interleave pieces' markers'
  | x :: _, [] => x
  | [], _ => EmptyString
  end.

(** The reading of C3 as stated: the chunks, concatenated in emission
    order, are the patch text without its marker lines. *)
Definition RebuildsPatchText (patch : string) (limit : Z) : Prop :=
  exists chunks,
    chunkBySize (splitPatchByFile patch) limit = Some chunks /\
    String.concat EmptyString chunks = String.concat EmptyString (splitMarkers patch).

(** The reading of C1 as stated: the branch set of every record is the set
    of tracked branches whose in-window listing holds the commit. *)
Definition BranchSetIsReachability (cfg : Config) (git : Git) : Prop :=
  forall m, In m (commitMetas cfg git) ->
    forall rb, In rb (branches m) <->
               In rb (remoteBranches git) /\ In (sha m) (branchListing git rb).

(** The reverse index [m] holds the relation [R] between hashes and
    branches. *)
Definition Represents (m : JsMap.t JsSet.t) (R : string -> string -> Prop) : Prop :=
  forall k,
    (JsMap.has m k = true <-> exists b, R k b) /\
    (forall b, In b (branchesOf m k) <-> R k b) /\
    NoDup (branchesOf m k).

(** The reading of C8 as stated: when the merge request of a commit is
    rejected, the summary recorded for the commit is its chunk summaries
    concatenated, with nothing in between. *)
Definition FallbackIsPlainConcatenation (cfg : Config) (git : Git) (svc : Services)
  (m : CommitMeta) (w : World) : Prop :=
  forall chunks parts w1 e w2,
    chunkBySize (splitPatchByFile (getDiff git (sha m))) (DIFF_CHUNK_MAX_CHARS cfg)
    = Some chunks ->
    summarizeChunks svc m (Z.of_nat (List.length chunks)) 0 chunks [] w
    = Some (parts, w1) ->
    chat svc (commitMergePrompt m parts) w1 = Some (Rejected e, w2) ->
    processCommit cfg git svc [] m w
    = Some ([{| meta := m; summary := String.concat EmptyString parts |}], w2).

(** [l1] is [l2] with some elements left out. *)
Inductive Subsequence {A : Type} : list A -> list A -> Prop :=
| Subsequence_nil : Subsequence [] []
| Subsequence_skip (x : A) (l1 l2 : list A) :
    Subsequence l1 l2 -> Subsequence l1 (x :: l2)
| Subsequence_keep (x : A) (l1 l2 : list A) :
    Subsequence l1 l2 -> Subsequence (x :: l1) (x :: l2).

(** Keeping the first occurrence of each element, given the elements met
    [earlier]. *)
Fixpoint firstOccurrences (earlier : list string) (l : list string) : list string :=
  match l with
  | [] => []
  | x :: rest =>
      if existsb (String.eqb x) earlier then firstOccurrences earlier rest
      else x :: firstOccurrences (x :: earlier) rest
  end.

(** The reporting set in the words of the specification: of the union
    listing, the first occurrence of each hash that the reverse index holds. *)
Definition reportingSetSpec (index : JsMap.t JsSet.t) (listing : list string)
  : list string :=
  firstOccurrences [] (filter (JsMap.has index) listing).

(** Oldest first, for a commit time [time]. *)
Definition OldestFirst (time : string -> Z) (l : list string) : Prop :=
  Sorted (fun a b => time a <= time b) l.

(** ** Sample inputs *)

Module Sample.

(** Two files; the first ends in a line with trailing spaces. *)
Definition patch : string :=
  "diff --git a/f b/f" +++ Js.nl +++ "+x  " +++ Js.nl +++
  "diff --git a/g b/g" +++ Js.nl +++ "+y".

(** Two branches: [origin/a] lists the commit [x], [origin/b] lists [x]
    and then [y].  The commit [x] changes the two files of [patch], the
    diff of [y] is empty. *)
Definition git : Git :=
  {| forEachRef := "origin/a" +++ Js.nl +++ "origin/b";
     logBranch := fun rb =>
       if String.eqb rb "origin/a" then "x" else "x" +++ Js.nl +++ "y";
     logAll := "x" +++ Js.nl +++ "y";
     showSubject := fun _ => "subject";
     showAuthor := fun _ => "author";
     revListParents := fun s => s +++ " parent";
     emptyTree := "4b825dc642cb6eb9a060e54bf8d69288fbee4904";
     diffOutput := fun _ s => if String.eqb s "x" then patch else EmptyString |}.

(** A repository with one branch and no commit in the window. *)
Definition quietGit : Git :=
  {| forEachRef := "origin/main";
     logBranch := fun _ => EmptyString;
     logAll := EmptyString;
     showSubject := fun _ => EmptyString;
     showAuthor := fun _ => EmptyString;
     revListParents := fun _ => EmptyString;
     emptyTree := "4b825dc642cb6eb9a060e54bf8d69288fbee4904";
     diffOutput := fun _ _ => EmptyString |}.

Definition config (cap : Z) : Config :=
  {| OPENAI_API_KEY := "key";
     LARK_WEBHOOK_URL := "https://open.larksuite.com/hook";
     REPO := "org/repo";
     REPO_PATH := ".";
     repoFullPath := "/work";
     repoPathExists := true;
     repoPathHasGit := true;
     PER_BRANCH_LIMIT := cap;
     DIFF_CHUNK_MAX_CHARS := 80000;
     DAYS_BACK := 1;
     DAYS_BACK_text := "1" |}.

(** A service that answers the first request and fails every later one
    with status 500. *)
Definition failingService : Services :=
  {| chatReply := fun n _ => if (n =? 0)%nat then Http 200 "A" else Http 500 "down";
     jsonOf := fun data => JsonText (Some data);
     larkReply := fun _ => None;
     todayLabel := "2024-01-01" |}.

Definition time (s : string) : Z := if String.eqb s "x" then 1 else 2.

(** A repository whose only commit has a diff made of one marker line. *)
Definition markerOnlyGit : Git :=
  {| forEachRef := "origin/main";
     logBranch := fun _ => "x";
     logAll := "x";
     showSubject := fun _ => "subject";
     showAuthor := fun _ => "author";
     revListParents := fun s => s +++ " parent";
     emptyTree := "4b825dc642cb6eb9a060e54bf8d69288fbee4904";
     diffOutput := fun _ _ => "diff --git a/f b/f" |}.

(** A chunk limit of three characters: the two units of [patch] do not
    fit one chunk. *)
Definition smallChunks : Config :=
  {| OPENAI_API_KEY := "key";
     LARK_WEBHOOK_URL := "https://open.larksuite.com/hook";
     REPO := "org/repo";
     REPO_PATH := ".";
     repoFullPath := "/work";
     repoPathExists := true;
     repoPathHasGit := true;
     PER_BRANCH_LIMIT := 200;
     DIFF_CHUNK_MAX_CHARS := 3;
     DAYS_BACK := 1;
     DAYS_BACK_text := "1" |}.

(** A service that answers the first request with [A], the second with [B],
    and fails every later one with status 500. *)
Definition twoAnswersService : Services :=
  {| chatReply := fun n _ =>
       if (n =? 0)%nat then Http 200 "A"
       else if (n =? 1)%nat then Http 200 "B"
       else Http 500 "down";
     jsonOf := fun data => JsonText (Some data);
     larkReply := fun _ => None;
     todayLabel := "2024-01-01" |}.

(** A service whose first answer has no text and that fails from then on. *)
Definition silentThenDownService : Services :=
  {| chatReply := fun n _ => if (n =? 0)%nat then Http 200 "{}" else Http 500 "down";
     jsonOf := fun _ => JsonText None;
     larkReply := fun _ => None;
     todayLabel := "2024-01-01" |}.

(** A service that rejects every request. *)
Definition deadService : Services :=
  {| chatReply := fun _ _ => NetError "Error: connect ECONNREFUSED";
     jsonOf := fun data => JsonText (Some data);
     larkReply := fun _ => None;
     todayLabel := "2024-01-01" |}.

End Sample.

(** * Properties *)

(** ** Strings *)

Section StringFacts.

Lemma append_nil_r (s : string) : s +++ EmptyString = s.
Proof. induction s as [|c s IH]; simpl; [reflexivity | now rewrite IH]. Qed.

Lemma append_assoc (a b c : string) : (a +++ b) +++ c = a +++ b +++ c.
Proof. induction a as [|x a IH]; simpl; [reflexivity | now rewrite IH]. Qed.

Lemma length_append (a b : string) :
  String.length (a +++ b) = (String.length a + String.length b)%nat.
Proof. induction a as [|x a IH]; simpl; [reflexivity | now rewrite IH]. Qed.

Lemma len_append (a b : string) : Js.len (a +++ b) = Js.len a + Js.len b.
Proof. unfold Js.len. rewrite length_append. lia. Qed.

Lemma len_nonneg (s : string) : 0 <= Js.len s.
Proof. unfold Js.len. lia. Qed.

Lemma truthy_iff (s : string) : Js.truthy s = true <-> s <> EmptyString.
Proof. destruct s; simpl; split; congruence. Qed.

Lemma truthy_false (s : string) : Js.truthy s = false <-> s = EmptyString.
Proof. destruct s; simpl; split; congruence. Qed.

Lemma truthy_len (s : string) : Js.truthy s = true <-> 0 < Js.len s.
Proof. destruct s; unfold Js.len; simpl; split; intros; try lia; congruence. Qed.

Lemma concat_cons (x : string) (l : list string) :
  String.concat EmptyString (x :: l) = x +++ String.concat EmptyString l.
Proof. destruct l; simpl; [now rewrite append_nil_r | reflexivity]. Qed.

Lemma take_drop (n : nat) (s : string) : takeStr n s +++ dropStr n s = s.
Proof.
  revert s; induction n as [|n IH]; intros [|c s]; simpl; try reflexivity.
  now rewrite IH.
Qed.

Lemma length_takeStr (n : nat) (s : string) :
  String.length (takeStr n s) = Nat.min n (String.length s).
Proof.
  revert s; induction n as [|n IH]; intros [|c s]; simpl; try reflexivity.
  now rewrite IH.
Qed.

Lemma length_dropStr (n : nat) (s : string) :
  String.length (dropStr n s) = (String.length s - n)%nat.
Proof.
  revert s; induction n as [|n IH]; intros [|c s]; simpl; try reflexivity.
  apply IH.
Qed.

Lemma dropStr_add (n m : nat) (s : string) :
  dropStr m (dropStr n s) = dropStr (n + m) s.
Proof.
  revert s; induction n as [|n IH]; intros s; simpl; [reflexivity|].
  destruct s as [|c s]; [now destruct m | apply IH].
Qed.

Lemma dropStr_all (n : nat) (s : string) :
  (String.length s <= n)%nat -> dropStr n s = EmptyString.
Proof.
  revert s; induction n as [|n IH]; intros [|c s]; simpl; intros H;
    try reflexivity; try lia.
  apply IH; lia.
Qed.

Lemma takeStr_min (n : nat) (s : string) :
  takeStr (Nat.min n (String.length s)) s = takeStr n s.
Proof.
  revert s; induction n as [|n IH]; intros [|c s]; simpl; try reflexivity.
  now rewrite IH.
Qed.

Lemma substring_take_drop (n m : nat) (s : string) :
  substring n m s = takeStr m (dropStr n s).
Proof.
  revert m s; induction n as [|n IH]; intros m s.
  - simpl. revert s; induction m as [|m IHm]; intros [|c s]; simpl;
      try reflexivity.
    now rewrite IHm.
  - destruct s as [|c s]; simpl; [now destruct m | apply IH].
Qed.

(** A slice of the forced split, when the index is inside the unit. *)
Lemma slice_window (p : string) (k : nat) (limit : Z) :
  0 < limit ->
  Js.slice p (Z.of_nat k) (Z.of_nat k + limit)
  = takeStr (Z.to_nat limit) (dropStr k p).
Proof.
  intros Hl. unfold Js.slice, Js.relIndex, Js.len.
  destruct (Z.ltb_spec (Z.of_nat k) 0) as [?|_]; [lia|].
  destruct (Z.ltb_spec (Z.of_nat k + limit) 0) as [?|_]; [lia|].
  rewrite substring_take_drop.
  destruct (Nat.le_gt_cases (String.length p) k) as [Hge|Hlt].
  - replace (Z.to_nat (Z.min (Z.of_nat k) (Z.of_nat (String.length p))))
      with (String.length p) by lia.
    rewrite !dropStr_all by lia. now destruct (Z.to_nat _), (Z.to_nat _).
  - replace (Z.to_nat (Z.min (Z.of_nat k) (Z.of_nat (String.length p))))
      with k by lia.
    rewrite <- (takeStr_min (Z.to_nat limit)), length_dropStr.
    f_equal. lia.
Qed.

End StringFacts.

(** ** The chunker: size bound and termination *)

Section ChunkerBound.

Variable limit : Z.

Lemma sliceLoop_diverges (p : string) (fuel : nat) :
  limit <= 0 ->
  forall i out, i < Js.len p -> sliceLoop fuel p limit i out = None.
Proof.
  intros Hl. induction fuel as [|fuel IH]; intros i out Hi; simpl.
  - reflexivity.
  - destruct (Z.ltb_spec i (Js.len p)) as [_|?]; [|lia].
    apply IH. lia.
Qed.

Lemma sliceLoop_mono (p : string) (fuel : nat) :
  forall i out r,
    sliceLoop fuel p limit i out = Some r ->
    forall fuel', (fuel <= fuel')%nat -> sliceLoop fuel' p limit i out = Some r.
Proof.
  induction fuel as [|fuel IH]; intros i out r H fuel' Hle; simpl in H.
  - discriminate.
  - destruct fuel' as [|fuel']; [lia|]. simpl.
    destruct (i <? Js.len p); [|exact H].
    apply (IH _ _ _ H). lia.
Qed.

(** With a positive limit the loop ends, and it appends the consecutive
    windows of [limit] characters of the rest of the unit. *)
Lemma sliceLoop_spec (p : string) :
  0 < limit ->
  forall fuel k out,
    (String.length p - k < fuel)%nat ->
    exists sl,
      sliceLoop fuel p limit (Z.of_nat k) out = Some (out ++ sl) /\
      String.concat EmptyString sl = dropStr k p /\
      Forall (fun c => 0 < Js.len c <= limit) sl.
Proof.
  intros Hl. induction fuel as [|fuel IH]; intros k out Hf; [lia|].
  simpl. unfold Js.len at 1.
  destruct (Z.ltb_spec (Z.of_nat k) (Z.of_nat (String.length p))) as [Hk|Hk].
  - destruct (IH (k + Z.to_nat limit)%nat
                (out ++ [Js.slice p (Z.of_nat k) (Z.of_nat k + limit)]))
      as (sl & Hrun & Hcat & Hall); [lia|].
    replace (Z.of_nat (k + Z.to_nat limit)) with (Z.of_nat k + limit) in Hrun by lia.
    exists (Js.slice p (Z.of_nat k) (Z.of_nat k + limit) :: sl).
    rewrite Hrun, <- app_assoc. split; [reflexivity|].
    rewrite concat_cons, Hcat, slice_window by exact Hl.
    rewrite <- dropStr_add. split; [apply take_drop|].
    constructor; [|exact Hall].
    unfold Js.len. rewrite length_takeStr, length_dropStr. lia.
  - exists []. rewrite app_nil_r. split; [reflexivity|].
    split; [|constructor].
    simpl. symmetry. apply dropStr_all. lia.
Qed.

Lemma windows_fuel (n : nat) :
  (0 < n)%nat ->
  forall f1 f2 s,
    (String.length s <= f1)%nat -> (String.length s <= f2)%nat ->
    windows f1 n s = windows f2 n s.
Proof.
  intros Hn. induction f1 as [|f1 IH]; intros f2 s H1 H2.
  - destruct s; [|cbn [String.length] in H1; lia]. now destruct f2.
  - destruct s as [|c s]; [now destruct f2|].
    destruct f2 as [|f2]; [cbn [String.length] in H2; lia|].
    cbn [windows]. f_equal. apply IH;
      rewrite length_dropStr; cbn [String.length] in *; lia.
Qed.

(** The windows of a text concatenate to it; each has between one and [n]
    characters, and each but the last has [n]. *)
Lemma windows_spec (n : nat) :
  (0 < n)%nat ->
  forall fuel s,
    (String.length s <= fuel)%nat ->
    String.concat EmptyString (windows fuel n s) = s /\
    Forall (fun c => (0 < String.length c <= n)%nat) (windows fuel n s) /\
    Forall (fun c => String.length c = n) (removelast (windows fuel n s)).
Proof.
  intros Hn. induction fuel as [|fuel IH]; intros s Hs.
  - destruct s; [|cbn [String.length] in Hs; lia]. repeat split; constructor.
  - destruct s as [|c s]; [repeat split; constructor|].
    cbn [windows].
    destruct (IH (dropStr n (String c s))) as (Hcat & Hall & Hfull);
      [rewrite length_dropStr; cbn [String.length] in *; lia|].
    split; [|split].
    + rewrite concat_cons, Hcat. apply take_drop.
    + constructor; [|exact Hall]. rewrite length_takeStr.
      cbn [String.length]. lia.
    + destruct (dropStr n (String c s)) as [|d r] eqn:E.
      * destruct fuel; constructor.
      * destruct fuel as [|fuel'];
          [apply (f_equal String.length) in E; rewrite length_dropStr in E;
           cbn [String.length] in *; lia|].
        cbn [windows removelast] in *.
        constructor; [|exact Hfull].
        rewrite length_takeStr.
        apply (f_equal String.length) in E. rewrite length_dropStr in E.
        cbn [String.length] in *. lia.
Qed.

Lemma limitSlices_spec (p : string) :
  0 < limit ->
  String.concat EmptyString (limitSlices limit p) = p /\
  Forall (fun c => 0 < Js.len c <= limit) (limitSlices limit p) /\
  Forall (fun c => Js.len c = limit) (removelast (limitSlices limit p)).
Proof.
  intros Hl. unfold limitSlices.
  destruct (windows_spec (Z.to_nat limit) ltac:(lia) (String.length p) p (le_n _))
    as (Hcat & Hall & Hfull).
  split; [exact Hcat|]. split.
  - eapply Forall_impl; [|exact Hall]. intros c Hc. cbv beta in Hc.
    unfold Js.len. lia.
  - eapply Forall_impl; [|exact Hfull]. intros c Hc. cbv beta in Hc.
    unfold Js.len. lia.
Qed.

(** With a positive limit the loop appends the windows of [limit]
    characters of what is left of the unit. *)
Lemma sliceLoop_windows (p : string) :
  0 < limit ->
  forall fuel k out,
    (String.length p - k < fuel)%nat ->
    sliceLoop fuel p limit (Z.of_nat k) out
    = Some (out ++ windows (String.length p - k) (Z.to_nat limit) (dropStr k p)).
Proof.
  intros Hl. induction fuel as [|fuel IH]; intros k out Hf; [lia|].
  simpl. unfold Js.len at 1.
  destruct (Z.ltb_spec (Z.of_nat k) (Z.of_nat (String.length p))) as [Hk|Hk].
  - pose proof (IH (k + Z.to_nat limit)%nat
                  (out ++ [Js.slice p (Z.of_nat k) (Z.of_nat k + limit)])
                  ltac:(lia)) as Hrun.
    replace (Z.of_nat (k + Z.to_nat limit)) with (Z.of_nat k + limit) in Hrun by lia.
    rewrite Hrun, <- app_assoc. do 2 f_equal. cbn [app].
    rewrite slice_window by exact Hl.
    destruct (String.length p - k)%nat as [|m] eqn:Em; [lia|].
    destruct (dropStr k p) as [|c d] eqn:Ed.
    + apply (f_equal String.length) in Ed. rewrite length_dropStr in Ed.
      cbn [String.length] in Ed. lia.
    + cbn [windows]. f_equal. rewrite <- Ed, dropStr_add.
      apply windows_fuel; rewrite ?length_dropStr; lia.
  - replace (String.length p - k)%nat with 0%nat by lia.
    now rewrite app_nil_r.
Qed.

Lemma forcedSlices_windows (p : string) (out : list string) :
  0 < limit -> forcedSlices p limit out = Some (out ++ limitSlices limit p).
Proof.
  intros Hl. unfold forcedSlices, limitSlices.
  pose proof (sliceLoop_windows p Hl (S (String.length p)) 0 out ltac:(lia)) as H.
  rewrite Nat.sub_0_r in H. exact H.
Qed.

Lemma forcedSlices_spec (p : string) (out : list string) :
  0 < limit ->
  exists sl,
    forcedSlices p limit out = Some (out ++ sl) /\
    String.concat EmptyString sl = p /\
    Forall (fun c => 0 < Js.len c <= limit) sl.
Proof.
  intros Hl. unfold forcedSlices.
  destruct (sliceLoop_spec p Hl (S (String.length p)) 0 out) as (sl & H1 & H2 & H3);
    [lia|].
  exists sl. auto.
Qed.

(** The fuel of [forcedSlices] loses no run: whatever the loop returns with
    any fuel, it returns with that one. *)
Lemma sliceLoop_fuel (p : string) (fuel : nat) (out r : list string) :
  sliceLoop fuel p limit 0 out = Some r -> forcedSlices p limit out = Some r.
Proof.
  intros H. destruct (Z.lt_ge_cases 0 limit) as [Hl|Hl].
  - destruct (forcedSlices_spec p out Hl) as (sl & Hrun & _).
    unfold forcedSlices in *.
    pose proof (sliceLoop_mono _ _ _ _ _ H (Nat.max fuel (S (String.length p)))
                  (Nat.le_max_l _ _)) as H1.
    pose proof (sliceLoop_mono _ _ _ _ _ Hrun (Nat.max fuel (S (String.length p)))
                  (Nat.le_max_r _ _)) as H2.
    congruence.
  - destruct (Z.lt_ge_cases 0 (Js.len p)) as [Hp|Hp].
    + rewrite sliceLoop_diverges in H by lia. discriminate.
    + unfold forcedSlices. destruct fuel as [|fuel]; [discriminate|].
      simpl in *. destruct (Z.ltb_spec 0 (Js.len p)); [lia | exact H].
Qed.

Lemma forcedSlices_fits (p : string) (out out' : list string) :
  forcedSlices p limit out = Some out' ->
  Forall (fits limit) out -> Forall (fits limit) out'.
Proof.
  intros H Hout. destruct (Z.lt_ge_cases 0 limit) as [Hl|Hl].
  - destruct (forcedSlices_spec p out Hl) as (sl & Hrun & _ & Hall).
    rewrite Hrun in H. injection H as <-.
    apply Forall_app; split; [exact Hout|].
    eapply Forall_impl; [|exact Hall]. unfold fits. simpl. lia.
  - unfold forcedSlices in H. simpl in H.
    destruct (Z.ltb_spec 0 (Js.len p)) as [Hp|Hp].
    + rewrite sliceLoop_diverges in H by lia. discriminate.
    + injection H as <-. exact Hout.
Qed.

Lemma chunkLoop_cons (p : string) (rest out : list string) (buf : string) :
  chunkLoop limit (p :: rest) out buf =
  let candidate := if Js.truthy buf then buf +++ Js.nlnl +++ p else p in
  if limit <? Js.len candidate then
    let out1 := if Js.truthy buf then out ++ [buf] else out in
    if limit <? Js.len p then
      match forcedSlices p limit out1 with
      | None => None
      | Some out2 => chunkLoop limit rest out2 EmptyString
      end
    else chunkLoop limit rest out1 p
  else chunkLoop limit rest out candidate.
Proof. reflexivity. Qed.

(** The buffer is empty or fits the limit, and so does every chunk
    already emitted. *)
Lemma chunkLoop_fits (parts : list string) :
  forall out buf out' buf',
    Forall (fits limit) out ->
    buf = EmptyString \/ fits limit buf ->
    chunkLoop limit parts out buf = Some (out', buf') ->
    Forall (fits limit) out' /\ (buf' = EmptyString \/ fits limit buf').
Proof.
  induction parts as [|p rest IH]; intros out buf out' buf' Hout Hbuf H.
  - simpl in H. injection H as <- <-. auto.
  - assert (Hout1 : Forall (fits limit) (if Js.truthy buf then out ++ [buf] else out)).
    { destruct (Js.truthy buf) eqn:E; [|exact Hout].
      apply Forall_app; split; [exact Hout|]. constructor; [|constructor].
      destruct Hbuf as [->|Hb]; [discriminate | exact Hb]. }
    rewrite chunkLoop_cons in H. cbv zeta in H.
    destruct (Z.ltb_spec limit
                (Js.len (if Js.truthy buf then buf +++ Js.nlnl +++ p else p)))
      as [Hc|Hc].
    + destruct (Z.ltb_spec limit (Js.len p)) as [Hp|Hp].
      * destruct (forcedSlices p limit _) as [out2|] eqn:E; [|discriminate].
        apply (IH _ _ _ _ (forcedSlices_fits _ _ _ E Hout1) (or_introl eq_refl) H).
      * apply (IH _ _ _ _ Hout1 (or_intror Hp) H).
    + apply (IH _ _ _ _ Hout (or_intror Hc) H).
Qed.

Lemma chunkLoop_returns (parts : list string) :
  0 < limit ->
  forall out buf, exists res, chunkLoop limit parts out buf = Some res.
Proof.
  intros Hl. induction parts as [|p rest IH]; intros out buf.
  - simpl. eauto.
  - rewrite chunkLoop_cons. cbv zeta.
    destruct (limit <? Js.len _); [|apply IH].
    destruct (limit <? Js.len p); [|apply IH].
    destruct (forcedSlices_spec p (if Js.truthy buf then out ++ [buf] else out) Hl)
      as (sl & -> & _).
    apply IH.
Qed.

Lemma chunkBySize_fits (parts out : list string) :
  chunkBySize parts limit = Some out -> Forall (fits limit) out.
Proof.
  unfold chunkBySize. intros H.
  destruct (chunkLoop limit parts [] EmptyString) as [[out' buf']|] eqn:E;
    [|discriminate].
  injection H as <-.
  destruct (chunkLoop_fits _ _ _ _ _ (Forall_nil _) (or_introl eq_refl) E)
    as [Hout Hbuf].
  destruct (Js.truthy buf') eqn:Et; [|exact Hout].
  apply Forall_app; split; [exact Hout|]. constructor; [|constructor].
  destruct Hbuf as [->|Hb]; [discriminate | exact Hb].
Qed.

Lemma chunkBySize_returns (parts : list string) :
  0 < limit -> exists out, chunkBySize parts limit = Some out.
Proof.
  intros Hl. unfold chunkBySize.
  destruct (chunkLoop_returns parts Hl [] EmptyString) as ([out buf] & ->).
  eauto.
Qed.

End ChunkerBound.

(** X25.  Whatever the units and the integer size limit, every chunk that
    [chunkBySize] returns has a length of at most the limit, the slices of a
    forced split included; and with a positive limit the packing does return
    its chunks. *)
Theorem chunkBySize_size_bound (parts : list string) (limit : Z) :
  (forall out, chunkBySize parts limit = Some out ->
               Forall (fun c => Js.len c <= limit) out) /\
  (0 < limit -> exists out, chunkBySize parts limit = Some out).
Proof.
  split.
  - intros out H. exact (chunkBySize_fits limit parts out H).
  - apply chunkBySize_returns.
Qed.

Lemma chunkBySize_size_bound_witness :
  Forall (fun c => Js.len c <= 4) ["abcd"; "efg"; "xy"; "z"; "0123"; "4567"; "89"] /\
  exists out, chunkBySize ["abcdefg"; "xy"; "z"; "0123456789"] 4 = Some out.
Proof.
  split.
  - apply (proj1 (chunkBySize_size_bound ["abcdefg"; "xy"; "z"; "0123456789"] 4)).
    reflexivity.
  - apply (proj2 (chunkBySize_size_bound ["abcdefg"; "xy"; "z"; "0123456789"] 4)).
    lia.
Defined.

(** ** The chunker: the units survive packing, in order *)

Section JoinFacts.

Variable sep : string.

Lemma join_cons2 (x y : string) (l : list string) :
  Js.join sep (x :: y :: l) = x +++ sep +++ Js.join sep (y :: l).
Proof. reflexivity. Qed.

Lemma join_snoc (g : list string) (p : string) :
  g <> [] -> Js.join sep (g ++ [p]) = Js.join sep g +++ sep +++ p.
Proof.
  induction g as [|x g IH]; intros Hg; [congruence|].
  destruct g as [|y g]; [reflexivity|].
  change ((x :: y :: g) ++ [p]) with (x :: y :: (g ++ [p])).
  rewrite !join_cons2.
  change (y :: g ++ [p]) with ((y :: g) ++ [p]).
  rewrite IH by discriminate. now rewrite !append_assoc.
Qed.

Lemma truthy_join (g : list string) :
  g <> [] -> Forall (fun u => Js.truthy u = true) g ->
  Js.truthy (Js.join sep g) = true.
Proof.
  intros Hg Hall. destruct g as [|x g]; [congruence|].
  inversion Hall as [|? ? Hx _]; subst.
  destruct g; [exact Hx|]. rewrite join_cons2.
  destruct x; [discriminate | reflexivity].
Qed.

Lemma contains_join (x : string) (l : list string) :
  In x l -> Contains x (Js.join sep l).
Proof.
  induction l as [|y l IH]; intros Hin; [contradiction|].
  destruct Hin as [->|Hin].
  - destruct l as [|z l].
    + exists EmptyString, EmptyString. simpl. now rewrite append_nil_r.
    + exists EmptyString, (sep +++ Js.join sep (z :: l)). reflexivity.
  - destruct l as [|z l]; [contradiction|].
    destruct (IH Hin) as (pre & post & E).
    exists (y +++ sep +++ pre), post.
    rewrite join_cons2, E, !append_assoc. reflexivity.
Qed.

End JoinFacts.

Section ChunkerOrder.

Variable limit : Z.
Hypothesis limit_pos : 0 < limit.

Lemma Packed_app (done1 out1 done2 out2 : list string) :
  Packed limit done1 out1 -> Packed limit done2 out2 ->
  Packed limit (done1 ++ done2) (out1 ++ out2).
Proof.
  intros H1 H2. induction H1 as [|us rest chunks Hus Hfit _ IH
                                 |p rest chunks Hp _ IH].
  - exact H2.
  - rewrite <- app_assoc. simpl. now apply Packed_group.
  - rewrite <- app_assoc. simpl. now apply Packed_forced.
Qed.

Lemma Packed_flush (done out g : list string) :
  Forall (fun u => Js.truthy u = true) g ->
  Forall (fun u => Js.len u <= limit) g ->
  Packed limit done out ->
  Packed limit (done ++ g)
    (if Js.truthy (Js.join Js.nlnl g) then out ++ [Js.join Js.nlnl g] else out).
Proof.
  intros Hne Hfit Hp. destruct g as [|x g].
  - simpl. now rewrite app_nil_r.
  - rewrite truthy_join by (assumption || discriminate).
    apply Packed_app; [exact Hp|].
    rewrite <- (app_nil_r (x :: g)) at 1.
    apply Packed_group; [discriminate | exact Hfit | constructor].
Qed.

(** The state of the loop: [done] are the units behind the chunks of
    [out], and the buffer is the join of the group [g] being filled. *)
Lemma chunkLoop_packed (parts : list string) :
  Forall (fun u => Js.truthy u = true) parts ->
  forall done out g,
    Forall (fun u => Js.truthy u = true) g ->
    Forall (fun u => Js.len u <= limit) g ->
    Packed limit done out ->
    exists out' buf',
      chunkLoop limit parts out (Js.join Js.nlnl g) = Some (out', buf') /\
      Packed limit (done ++ g ++ parts)
        (if Js.truthy buf' then out' ++ [buf'] else out').
Proof.
  induction parts as [|p rest IH]; intros Hparts done out g Hne Hfit Hp.
  - exists out, (Js.join Js.nlnl g). split; [reflexivity|].
    rewrite app_nil_r. now apply Packed_flush.
  - inversion Hparts as [|? ? Hpne Hrest]; subst.
    rewrite chunkLoop_cons. cbv zeta.
    assert (Hcand : (if Js.truthy (Js.join Js.nlnl g)
                     then Js.join Js.nlnl g +++ Js.nlnl +++ p else p)
                    = Js.join Js.nlnl (g ++ [p])).
    { destruct g as [|x g]; [reflexivity|].
      rewrite truthy_join by (assumption || discriminate).
      symmetry. apply join_snoc. discriminate. }
    rewrite Hcand.
    pose proof (Packed_flush done out g Hne Hfit Hp) as Hflush.
    set (out1 := if Js.truthy (Js.join Js.nlnl g)
                 then out ++ [Js.join Js.nlnl g] else out) in *.
    destruct (Z.ltb_spec limit (Js.len (Js.join Js.nlnl (g ++ [p])))) as [Hc|Hc].
    + destruct (Z.ltb_spec limit (Js.len p)) as [Hbig|Hsmall].
      * rewrite (forcedSlices_windows limit p out1 limit_pos).
        destruct (IH Hrest ((done ++ g) ++ [p]) (out1 ++ limitSlices limit p) []
                    (Forall_nil _) (Forall_nil _))
          as (out' & buf' & Hrun & Hpk).
        { apply Packed_app; [exact Hflush|].
          rewrite <- (app_nil_r (limitSlices limit p)).
          apply Packed_forced; [exact Hbig | constructor]. }
        exists out', buf'. split; [exact Hrun|].
        simpl in Hpk. rewrite <- !app_assoc in Hpk. exact Hpk.
      * destruct (IH Hrest (done ++ g) out1 [p]) as (out' & buf' & Hrun & Hpk).
        { now constructor. }
        { now constructor. }
        { exact Hflush. }
        exists out', buf'. split; [exact Hrun|].
        rewrite <- !app_assoc in Hpk. exact Hpk.
    + destruct (IH Hrest done out (g ++ [p])) as (out' & buf' & Hrun & Hpk).
      { apply Forall_app; split; [exact Hne | now constructor]. }
      { apply Forall_app; split; [exact Hfit|]. constructor; [|constructor].
        destruct g as [|x g]; [exact Hc|].
        rewrite join_snoc, !len_append in Hc by discriminate.
        pose proof (len_nonneg (Js.join Js.nlnl (x :: g))).
        pose proof (len_nonneg Js.nlnl). lia. }
      { exact Hp. }
      exists out', buf'. split; [exact Hrun|].
      rewrite <- !app_assoc in Hpk. exact Hpk.
Qed.

Lemma chunkBySize_packed (parts : list string) :
  Forall (fun u => Js.truthy u = true) parts ->
  exists chunks, chunkBySize parts limit = Some chunks /\ Packed limit parts chunks.
Proof.
  intros Hparts.
  destruct (chunkLoop_packed parts Hparts [] [] [] (Forall_nil _) (Forall_nil _)
              (Packed_nil limit)) as (out' & buf' & Hrun & Hpk).
  unfold chunkBySize. simpl in Hrun. rewrite Hrun. eauto.
Qed.

End ChunkerOrder.

Section SplitFacts.

Lemma splitPatchByFile_units (patch : string) :
  splitPatchByFile patch = filter Js.truthy (map Js.trim (splitMarkers patch)).
Proof. unfold splitPatchByFile. now destruct patch. Qed.

Lemma splitPatchByFile_nonempty (patch : string) :
  Forall (fun u => Js.truthy u = true) (splitPatchByFile patch).
Proof.
  rewrite splitPatchByFile_units. apply Forall_forall.
  intros u Hu. now apply filter_In in Hu.
Qed.

(** Putting the dropped marker lines back between the pieces gives the
    patch: the split removes the marker lines and nothing else. *)
Lemma scan_rebuild (s : string) :
  (forall atStart cur x,
      interleave (splitMarkersFrom false atStart cur s)
                 (markerLinesFrom false atStart x s) = cur +++ s) /\
  (forall atStart mcur,
      exists m ms,
        markerLinesFrom true atStart mcur s = m :: ms /\
        m +++ interleave (splitMarkersFrom true atStart EmptyString s) ms
        = mcur +++ s).
Proof.
  induction s as [|c s [IHa IHb]]; split.
  - intros; simpl. now rewrite append_nil_r.
  - intros; simpl. exists mcur, []. split; reflexivity.
  - intros atStart cur x.
    change (splitMarkersFrom false atStart cur (String c s))
      with (if atStart && String.prefix marker (String c s)
            then cur :: splitMarkersFrom true false EmptyString s
            else splitMarkersFrom false (Js.isLineTerminator c)
                   (cur +++ String c EmptyString) s).
    change (markerLinesFrom false atStart x (String c s))
      with (if atStart && String.prefix marker (String c s)
            then markerLinesFrom true false (String c EmptyString) s
            else markerLinesFrom false (Js.isLineTerminator c) EmptyString s).
    destruct (atStart && String.prefix marker (String c s)).
    + destruct (IHb false (String c EmptyString)) as (m & ms & -> & E).
      simpl interleave. now rewrite E.
    + rewrite IHa, append_assoc. reflexivity.
  - intros atStart mcur.
    change (splitMarkersFrom true atStart EmptyString (String c s))
      with (if Js.isLineTerminator c
            then splitMarkersFrom false true (String c EmptyString) s
            else splitMarkersFrom true false EmptyString s).
    change (markerLinesFrom true atStart mcur (String c s))
      with (if Js.isLineTerminator c
            then mcur :: markerLinesFrom false true EmptyString s
            else markerLinesFrom true false (mcur +++ String c EmptyString) s).
    destruct (Js.isLineTerminator c).
    + exists mcur, (markerLinesFrom false true EmptyString s).
      split; [reflexivity|]. now rewrite IHa.
    + destruct (IHb false (mcur +++ String c EmptyString)) as (m & ms & -> & E).
      exists m, ms. split; [reflexivity|].
      rewrite E, append_assoc. reflexivity.
Qed.

Lemma splitMarkers_rebuild (patch : string) :
  interleave (splitMarkers patch) (markerLines patch) = patch.
Proof. exact (proj1 (scan_rebuild patch) true EmptyString EmptyString). Qed.

End SplitFacts.

Section ChunkerAnyNumber.

(** At an integer limit the chunker at any number is [chunkBySize]. *)
Lemma chunkLoopN_int (limit : Z) (parts : list string) :
  forall out buf, chunkLoopN (Int limit) parts out buf = chunkLoop limit parts out buf.
Proof.
  induction parts as [|p rest IH]; intros out buf; [reflexivity|].
  rewrite chunkLoop_cons. cbn [chunkLoopN gtNumber forcedSlicesN]. cbv zeta.
  destruct (limit <? Js.len _); [|apply IH].
  destruct (limit <? Js.len p); [|apply IH].
  destruct (forcedSlices p limit _); [apply IH | reflexivity].
Qed.

Lemma chunkBySizeN_int (parts : list string) (limit : Z) :
  chunkBySizeN parts (Int limit) = chunkBySize parts limit.
Proof. unfold chunkBySizeN, chunkBySize. now rewrite chunkLoopN_int. Qed.

(** At [NaN] no test holds: every unit is appended to the buffer. *)
Lemma chunkLoopN_nan (rest : list string) :
  forall g,
    Forall (fun u => Js.truthy u = true) g ->
    Forall (fun u => Js.truthy u = true) rest ->
    chunkLoopN NaN rest [] (Js.join Js.nlnl g)
    = Some ([], Js.join Js.nlnl (g ++ rest)).
Proof.
  induction rest as [|p rest IH]; intros g Hg Hrest.
  - now rewrite app_nil_r.
  - inversion Hrest as [|? ? Hp Hrest']; subst.
    cbn [chunkLoopN gtNumber]. cbv zeta.
    assert (Hcand : (if Js.truthy (Js.join Js.nlnl g)
                     then Js.join Js.nlnl g +++ Js.nlnl +++ p else p)
                    = Js.join Js.nlnl (g ++ [p])).
    { destruct g as [|x g]; [reflexivity|].
      rewrite truthy_join by (assumption || discriminate).
      symmetry. apply join_snoc. discriminate. }
    rewrite Hcand.
    replace (g ++ p :: rest) with ((g ++ [p]) ++ rest) by now rewrite <- app_assoc.
    apply IH; [|exact Hrest'].
    apply Forall_app. split; [exact Hg | now constructor].
Qed.

(** At [NaN] the non-empty units of a patch always make one chunk, of any
    length. *)
Lemma chunkBySizeN_nan (parts : list string) :
  parts <> [] ->
  Forall (fun u => Js.truthy u = true) parts ->
  chunkBySizeN parts NaN = Some [Js.join Js.nlnl parts].
Proof.
  intros Hne Hall. unfold chunkBySizeN.
  change EmptyString with (Js.join Js.nlnl []).
  rewrite (chunkLoopN_nan parts [] (Forall_nil _) Hall).
  cbn [app]. now rewrite truthy_join.
Qed.

End ChunkerAnyNumber.

(** C2 at a limit that is not a number.  A setting without digits makes
    [parseInt] return [NaN]; no comparison with it holds, so the two units,
    each of ten characters, are packed into one chunk of twenty-two
    characters, which is not within the limit.  At the limit ten each unit
    is a chunk of its own. *)
Theorem nan_limit_gives_one_unbounded_chunk :
  chunkBySizeN ["0123456789"; "abcdefghij"] NaN
  = Some ["0123456789" +++ Js.nlnl +++ "abcdefghij"] /\
  Js.len ("0123456789" +++ Js.nlnl +++ "abcdefghij") = 22 /\
  leNumber 22 NaN = false /\
  chunkBySizeN ["0123456789"; "abcdefghij"] (Int 10)
  = Some ["0123456789"; "abcdefghij"].
Proof. repeat split; reflexivity. Qed.

(** ** The collector *)

Section MapFacts.

Context {V : Type}.

Lemma get_set (m : JsMap.t V) (k k' : string) (v : V) :
  JsMap.get (JsMap.set m k v) k'
  = if String.eqb k k' then Some v else JsMap.get m k'.
Proof.
  induction m as [|[k0 v0] m IH]; simpl.
  - reflexivity.
  - destruct (String.eqb_spec k0 k) as [->|Hk0]; simpl.
    + destruct (String.eqb k k'); reflexivity.
    + rewrite IH. destruct (String.eqb_spec k0 k') as [->|_]; [|reflexivity].
      destruct (String.eqb_spec k k') as [->|_]; [congruence | reflexivity].
Qed.

Lemma in_set_inv (m : JsMap.t V) (k : string) (v : V) (e : string * V) :
  In e (JsMap.set m k v) -> e = (k, v) \/ In e m.
Proof.
  induction m as [|[k0 v0] m IH]; simpl.
  - intros [<-|[]]. now left.
  - destruct (String.eqb_spec k0 k) as [->|_]; simpl.
    + intros [<-|H]; auto.
    + intros [<-|H]; auto. destruct (IH H); auto.
Qed.

Lemma in_set_same (m : JsMap.t V) (k : string) (v : V) :
  In (k, v) (JsMap.set m k v).
Proof.
  induction m as [|[k0 v0] m IH]; simpl.
  - now left.
  - destruct (String.eqb_spec k0 k) as [->|_]; simpl; auto.
Qed.

Lemma in_set_other (m : JsMap.t V) (k : string) (v : V) (e : string * V) :
  In e m -> fst e <> k -> In e (JsMap.set m k v).
Proof.
  induction m as [|[k0 v0] m IH]; simpl; [tauto|].
  intros [<-|H] Hne.
  - simpl in Hne. destruct (String.eqb_spec k0 k); [congruence | now left].
  - destruct (String.eqb k0 k); simpl; auto.
Qed.

End MapFacts.

Section SetFacts.

Lemma set_has_in (s : JsSet.t) (x : string) : JsSet.has s x = true <-> In x s.
Proof.
  unfold JsSet.has. rewrite existsb_exists. split.
  - intros (y & Hy & E). apply String.eqb_eq in E. now subst.
  - intros H. exists x. split; [exact H | apply String.eqb_refl].
Qed.

Lemma set_add_in (s : JsSet.t) (x y : string) :
  In y (JsSet.add s x) <-> In y s \/ y = x.
Proof.
  unfold JsSet.add. destruct (JsSet.has s x) eqn:E.
  - apply set_has_in in E. split; [auto | intros [H| ->]; assumption].
  - rewrite in_app_iff. simpl. intuition congruence.
Qed.

Lemma set_add_nodup (s : JsSet.t) (x : string) : NoDup s -> NoDup (JsSet.add s x).
Proof.
  intros H. unfold JsSet.add. destruct (JsSet.has s x) eqn:E; [exact H|].
  apply NoDup_app; [exact H | repeat constructor; simpl; tauto |].
  intros y Hy [<-|[]]. apply set_has_in in Hy. congruence.
Qed.

End SetFacts.

Section SubsequenceFacts.

Context {A : Type}.

Lemma Subsequence_refl (l : list A) : Subsequence l l.
Proof. induction l; constructor; assumption. Qed.

Lemma skipn_subsequence (n : nat) (l : list A) : Subsequence (skipn n l) l.
Proof.
  revert n. induction l as [|x l IH]; intros [|n]; simpl.
  - constructor.
  - constructor.
  - apply Subsequence_refl.
  - constructor. apply IH.
Qed.

Lemma Subsequence_Forall (P : A -> Prop) (l1 l2 : list A) :
  Subsequence l1 l2 -> Forall P l2 -> Forall P l1.
Proof.
  induction 1 as [|x l1 l2 _ IH|x l1 l2 _ IH]; intros H.
  - constructor.
  - inversion H; subst. now apply IH.
  - inversion H; subst. constructor; [assumption | now apply IH].
Qed.

Lemma Subsequence_StronglySorted (R : A -> A -> Prop) (l1 l2 : list A) :
  Subsequence l1 l2 -> StronglySorted R l2 -> StronglySorted R l1.
Proof.
  induction 1 as [|x l1 l2 Hs IH|x l1 l2 Hs IH]; intros H.
  - constructor.
  - inversion H; subst. now apply IH.
  - inversion H; subst. constructor; [now apply IH|].
    eapply Subsequence_Forall; eassumption.
Qed.

End SubsequenceFacts.

Section CollectorFacts.

Variable cfg : Config.
Variable git : Git.

(** *** The per-branch cap *)

Lemma cappedListing_positive (rb : string) :
  0 < PER_BRANCH_LIMIT cfg ->
  cappedListing cfg git rb
  = skipn (List.length (branchListing git rb) - Z.to_nat (PER_BRANCH_LIMIT cfg))
      (branchListing git rb) /\
  Z.of_nat (List.length (cappedListing cfg git rb)) <= PER_BRANCH_LIMIT cfg /\
  Subsequence (cappedListing cfg git rb) (branchListing git rb).
Proof.
  intros Hcap. unfold cappedListing, Js.sliceFrom, Js.relIndex.
  destruct (Z.ltb_spec (- PER_BRANCH_LIMIT cfg) 0) as [_|?]; [|lia].
  set (l := branchListing git rb).
  replace (Z.to_nat (Z.max (Z.of_nat (List.length l) + - PER_BRANCH_LIMIT cfg) 0))
    with (List.length l - Z.to_nat (PER_BRANCH_LIMIT cfg))%nat by lia.
  split; [reflexivity|]. split.
  - rewrite length_skipn. lia.
  - apply skipn_subsequence.
Qed.

Lemma cappedListing_zero (rb : string) :
  PER_BRANCH_LIMIT cfg = 0 -> cappedListing cfg git rb = branchListing git rb.
Proof.
  intros E. unfold cappedListing, Js.sliceFrom, Js.relIndex. rewrite E. simpl.
  rewrite Z.min_l by lia. reflexivity.
Qed.

(** *** The branch map *)

Lemma branchToCommitsOf_in (rbs : list string) :
  forall rb shas,
    In (rb, shas) (branchToCommitsOf cfg git rbs) <->
    In rb rbs /\ shas = cappedListing cfg git rb.
Proof.
  unfold branchToCommitsOf.
  assert (Hgen : forall (m : JsMap.t (list string)) (before : list string),
             (forall rb shas, In (rb, shas) m <->
                              In rb before /\ shas = cappedListing cfg git rb) ->
             forall rb shas,
               In (rb, shas)
                 (fold_left (fun m rb => JsMap.set m rb (cappedListing cfg git rb))
                    rbs m) <->
               In rb (before ++ rbs) /\ shas = cappedListing cfg git rb).
  { induction rbs as [|r rbs IH]; intros m before Hm rb shas; simpl.
    - rewrite app_nil_r. apply Hm.
    - replace (before ++ r :: rbs) with ((before ++ [r]) ++ rbs)
        by now rewrite <- app_assoc.
      apply IH. clear rb shas. intros rb shas. rewrite in_app_iff. simpl. split.
      + intros H. apply in_set_inv in H. destruct H as [E|H].
        * injection E as -> ->. tauto.
        * apply Hm in H. tauto.
      + intros [[Hb|[->|[]]] ->].
        * destruct (String.eqb_spec rb r) as [->|Hne].
          -- apply in_set_same.
          -- apply in_set_other; [|exact Hne]. apply Hm. tauto.
        * apply in_set_same. }
  intros rb shas. apply (Hgen [] []). simpl. tauto.
Qed.

(** *** The reverse index *)

Lemma has_get (m : JsMap.t JsSet.t) (k : string) :
  JsMap.has m k = true <-> JsMap.get m k <> None.
Proof. unfold JsMap.has. destruct (JsMap.get m k); split; congruence. Qed.

Lemma get_addBranch (m : JsMap.t JsSet.t) (rb s k : string) :
  JsMap.get (addBranch m rb s) k
  = if String.eqb s k then Some (JsSet.add (branchesOf m s) rb)
    else JsMap.get m k.
Proof.
  unfold addBranch, branchesOf, JsMap.has.
  destruct (JsMap.get m s) as [bs|] eqn:E.
  - rewrite E. apply get_set.
  - rewrite get_set, String.eqb_refl, !get_set.
    destruct (String.eqb s k); reflexivity.
Qed.

Lemma Represents_ext (m : JsMap.t JsSet.t) (R R' : string -> string -> Prop) :
  (forall k b, R k b <-> R' k b) -> Represents m R -> Represents m R'.
Proof.
  intros HR Hm k. destruct (Hm k) as (H1 & H2 & H3). split; [|split].
  - rewrite H1. split; intros (b & Hb); exists b; now apply HR.
  - intros b. rewrite H2. apply HR.
  - exact H3.
Qed.

Lemma Represents_empty : Represents [] (fun _ _ => False).
Proof.
  intros k. split; [|split].
  - split; [discriminate | intros (_ & [])].
  - intros b. simpl. tauto.
  - constructor.
Qed.

Lemma Represents_addBranch (m : JsMap.t JsSet.t) (R : string -> string -> Prop)
  (rb s : string) :
  Represents m R ->
  Represents (addBranch m rb s) (fun k b => R k b \/ (k = s /\ b = rb)).
Proof.
  intros Hm k. destruct (Hm k) as (H1 & H2 & H3).
  unfold branchesOf. rewrite has_get, get_addBranch.
  destruct (String.eqb_spec s k) as [->|Hne].
  - split; [|split].
    + split; [intros _; exists rb; auto | congruence].
    + intros b. rewrite set_add_in, H2. intuition congruence.
    + apply set_add_nodup. exact H3.
  - split; [|split].
    + rewrite <- has_get, H1. split; intros (b & Hb); exists b; [tauto|].
      destruct Hb as [Hb|[E _]]; [exact Hb | congruence].
    + intros b. fold (branchesOf m k). rewrite H2. intuition congruence.
    + exact H3.
Qed.

Lemma Represents_branch (shas : list string) (rb : string) :
  forall m R,
    Represents m R ->
    Represents (fold_left (fun m' s => addBranch m' rb s) shas m)
      (fun k b => R k b \/ (b = rb /\ In k shas)).
Proof.
  induction shas as [|s shas IH]; intros m R Hm; simpl.
  - eapply Represents_ext; [|exact Hm]. intros; tauto.
  - eapply Represents_ext; [|apply IH, Represents_addBranch, Hm].
    intros k b. simpl. intuition congruence.
Qed.

Lemma Represents_index (b2c : JsMap.t (list string)) :
  Represents (shaToBranchesOf b2c)
    (fun k b => exists shas, In (b, shas) b2c /\ In k shas).
Proof.
  unfold shaToBranchesOf.
  assert (Hgen : forall m R,
             Represents m R ->
             Represents
               (fold_left
                  (fun m (entry : string * list string) =>
                     fold_left (fun m' s => addBranch m' (fst entry) s)
                       (snd entry) m) b2c m)
               (fun k b => R k b \/ exists shas, In (b, shas) b2c /\ In k shas)).
  { induction b2c as [|[rb shas] b2c IH]; intros m R Hm; simpl.
    - eapply Represents_ext; [|exact Hm]. intros k b. split; [auto|].
      intros [H|(? & [] & _)]. exact H.
    - eapply Represents_ext; [|apply IH, Represents_branch, Hm].
      intros k b. simpl. split.
      + intros [[H|[-> H]]|(l & H1 & H2)]; eauto 6.
      + intros [H|(l & [E|H1] & H2)]; eauto 6.
        injection E as -> ->. auto. }
  eapply Represents_ext; [|apply Hgen, Represents_empty].
  intros k b. simpl. tauto.
Qed.

(** The reverse index relates a hash to the tracked branches whose capped
    listing holds it. *)
Lemma Represents_shaToBranches :
  Represents (shaToBranches cfg git)
    (fun k b => In b (remoteBranches git) /\ In k (cappedListing cfg git b)).
Proof.
  eapply Represents_ext; [|apply Represents_index].
  intros k b. unfold branchToCommits. split.
  - intros (shas & H & Hk). apply branchToCommitsOf_in in H.
    destruct H as [H ->]. auto.
  - intros [H Hk]. exists (cappedListing cfg git b).
    split; [|exact Hk]. apply branchToCommitsOf_in. auto.
Qed.

(** *** The reporting set *)

Lemma filterSeen_spec (index : JsMap.t JsSet.t) (shas : list string) :
  forall seen,
    NoDup (filterSeen index seen shas) /\
    forall x, In x (filterSeen index seen shas) ->
              ~ In x seen /\ In x shas /\ JsMap.has index x = true.
Proof.
  induction shas as [|s rest IH]; intros seen; simpl.
  - split; [constructor | contradiction].
  - destruct (JsSet.has seen s) eqn:Es.
    + destruct (IH seen) as [Hnd Hin]. split; [exact Hnd|].
      intros x Hx. destruct (Hin x Hx) as (? & ? & ?). auto.
    + destruct (JsMap.has index s) eqn:Eh; simpl.
      * destruct (IH (JsSet.add seen s)) as [Hnd Hin]. split.
        -- constructor; [|exact Hnd]. intros Hs.
           destruct (Hin s Hs) as (Hns & _). apply Hns, set_add_in. auto.
        -- intros x [<-|Hx].
           ++ split; [|auto]. intros H. apply set_has_in in H. congruence.
           ++ destruct (Hin x Hx) as (Hns & Hr & Hh). split; [|auto].
              intros Hseen. apply Hns, set_add_in. auto.
      * destruct (IH seen) as [Hnd Hin]. split; [exact Hnd|].
        intros x Hx. destruct (Hin x Hx) as (? & ? & ?). auto.
Qed.

Lemma filterSeen_subsequence (index : JsMap.t JsSet.t) (shas : list string) :
  forall seen, Subsequence (filterSeen index seen shas) shas.
Proof.
  induction shas as [|s rest IH]; intros seen; simpl; [constructor|].
  destruct (JsSet.has seen s); [constructor; apply IH|].
  destruct (JsMap.has index s); simpl; constructor; apply IH.
Qed.

Lemma filterSeen_firstOccurrences (index : JsMap.t JsSet.t) (shas : list string) :
  forall seen earlier,
    (forall x, JsSet.has seen x = existsb (String.eqb x) earlier) ->
    filterSeen index seen shas
    = firstOccurrences earlier (filter (JsMap.has index) shas).
Proof.
  induction shas as [|s rest IH]; intros seen earlier Hsame; simpl; [reflexivity|].
  destruct (JsMap.has index s) eqn:Eh; simpl.
  - rewrite <- Hsame. destruct (JsSet.has seen s) eqn:Es; [now apply IH|].
    f_equal. apply IH. intros x. unfold JsSet.add. rewrite Es.
    unfold JsSet.has. rewrite existsb_app. simpl.
    fold (JsSet.has seen x). rewrite Hsame, String.eqb_sym.
    rewrite orb_false_r. apply orb_comm.
  - destruct (JsSet.has seen s); now apply IH.
Qed.

Lemma filterSeen_ext (index index' : JsMap.t JsSet.t) (shas : list string) :
  (forall k, JsMap.has index k = JsMap.has index' k) ->
  forall seen, filterSeen index seen shas = filterSeen index' seen shas.
Proof.
  intros Hsame. induction shas as [|s rest IH]; intros seen; simpl; [reflexivity|].
  rewrite Hsame, !IH. reflexivity.
Qed.

Lemma map_sha_metaOf (index : JsMap.t JsSet.t) (l : list string) :
  map sha (map (metaOf cfg git index) l) = l.
Proof. induction l as [|x l IH]; simpl; [reflexivity | now rewrite IH]. Qed.

End CollectorFacts.


(** C1, as the code has it.  The final reporting set holds exactly one
    record for each of its hashes, and the branch set of a record is not
    empty, has no duplicate, and holds exactly the tracked remote branches
    whose capped in-window listing contains the commit. *)
Theorem commitMetas_one_record_per_hash (cfg : Config) (git : Git) :
  NoDup (map sha (commitMetas cfg git)) /\
  forall m, In m (commitMetas cfg git) ->
    branches m <> [] /\
    NoDup (branches m) /\
    forall rb, In rb (branches m) <->
               In rb (remoteBranches git) /\ In (sha m) (cappedListing cfg git rb).
Proof.
  unfold commitMetas, commitShas. split.
  - rewrite map_sha_metaOf. apply filterSeen_spec.
  - intros m Hm. apply in_map_iff in Hm. destruct Hm as (s & <- & Hs).
    apply filterSeen_spec in Hs. destruct Hs as (_ & _ & Hhas).
    destruct (Represents_shaToBranches cfg git s) as (H1 & H2 & H3).
    pose proof (StringSort.Permuted_sort (branchesOf (shaToBranches cfg git) s))
      as Hperm.
    assert (Hiff : forall rb,
               In rb (StringSort.sort (branchesOf (shaToBranches cfg git) s)) <->
               In rb (remoteBranches git) /\ In s (cappedListing cfg git rb)).
    { intros rb. rewrite <- H2. split; apply Permutation_in;
        [apply Permutation_sym|]; exact Hperm. }
    simpl. split; [|split].
    + apply H1 in Hhas. destruct Hhas as (b & Hb).
      apply Hiff in Hb. intros E. rewrite E in Hb. exact Hb.
    + eapply Permutation_NoDup; eassumption.
    + exact Hiff.
Qed.

Lemma commitMetas_one_record_per_hash_witness :
  NoDup (map sha (commitMetas (Sample.config 1) Sample.git)) /\
  forall rb, In rb ["origin/a"] <->
             In rb (remoteBranches Sample.git) /\
             In "x" (cappedListing (Sample.config 1) Sample.git rb).
Proof.
  destruct (commitMetas_one_record_per_hash (Sample.config 1) Sample.git)
    as [Hnd Hall].
  split; [exact Hnd|].
  apply (Hall (metaOf (Sample.config 1) Sample.git
                 (shaToBranches (Sample.config 1) Sample.git) "x")).
  vm_compute. auto.
Defined.

(** C1, as stated, fails under the per-branch cap: with a cap of one,
    [origin/b] lists the commits [x] and [y] and keeps [y] only, so the
    record of [x] names [origin/a] alone although [origin/b] lists [x]. *)
Lemma capped_branch_missing_from_record :
  ~ BranchSetIsReachability (Sample.config 1) Sample.git.
Proof.
  intros H.
  specialize (H (metaOf (Sample.config 1) Sample.git
                   (shaToBranches (Sample.config 1) Sample.git) "x")).
  assert (Hin : In "origin/b"
                  (branches (metaOf (Sample.config 1) Sample.git
                               (shaToBranches (Sample.config 1) Sample.git) "x"))).
  { apply H; vm_compute; auto. }
  vm_compute in Hin. destruct Hin as [E|[]]. discriminate E.
Qed.

(** C4 at a cap of zero: [list.slice(-0)] is the whole list, so the branch
    [origin/b] contributes both of its commits. *)
Theorem zero_cap_keeps_whole_listing :
  PER_BRANCH_LIMIT (Sample.config 0) = 0 /\
  cappedListing (Sample.config 0) Sample.git "origin/b" = ["x"; "y"] /\
  branches (metaOf (Sample.config 0) Sample.git
              (shaToBranches (Sample.config 0) Sample.git) "x")
  = ["origin/a"; "origin/b"].
Proof. repeat split; reflexivity. Qed.

(** C5.  The reporting sequence is, of the union listing, the first
    occurrence of each hash that the reverse index holds; it is a
    subsequence of that listing, so it is in non-decreasing commit time when
    the listing is oldest first; and it does not depend on the order in
    which the branches are listed. *)
Theorem commitShas_chronological (cfg : Config) (git : Git) :
  commitShas cfg git = reportingSetSpec (shaToBranches cfg git) (allShasOrdered git) /\
  Subsequence (commitShas cfg git) (allShasOrdered git) /\
  (forall time : string -> Z,
      OldestFirst time (allShasOrdered git) ->
      StronglySorted (fun a b => time a <= time b) (commitShas cfg git)) /\
  (forall git' : Git,
      Permutation (remoteBranches git) (remoteBranches git') ->
      (forall rb, logBranch git' rb = logBranch git rb) ->
      logAll git' = logAll git ->
      commitShas cfg git' = commitShas cfg git).
Proof.
  split; [|split; [|split]].
  - apply filterSeen_firstOccurrences. reflexivity.
  - apply filterSeen_subsequence.
  - intros time Hsorted.
    apply Subsequence_StronglySorted with (l2 := allShasOrdered git).
    + apply filterSeen_subsequence.
    + apply Sorted_StronglySorted; [|exact Hsorted].
      intros a b c Hab Hbc. lia.
  - intros git' Hperm Hlog Hall. unfold commitShas, allShasOrdered.
    rewrite Hall. apply filterSeen_ext. intros k.
    apply eq_iff_eq_true.
    rewrite (proj1 (Represents_shaToBranches cfg git' k)).
    rewrite (proj1 (Represents_shaToBranches cfg git k)).
    assert (Hcap : forall b, cappedListing cfg git' b = cappedListing cfg git b).
    { intros b. unfold cappedListing, branchListing. now rewrite Hlog. }
    split; intros (b & Hb & Hk); exists b; rewrite Hcap in *; split; trivial.
    + eapply Permutation_in; [apply Permutation_sym|]; eassumption.
    + eapply Permutation_in; eassumption.
Qed.

Lemma commitShas_chronological_witness :
  StronglySorted (fun a b => Sample.time a <= Sample.time b)
    (commitShas (Sample.config 200) Sample.git).
Proof.
  apply (proj1 (proj2 (proj2 (commitShas_chronological (Sample.config 200) Sample.git)))).
  unfold OldestFirst. vm_compute.
  repeat constructor. discriminate.
Defined.

(** ** The summarization pipeline *)

Section BlankFacts.

Lemma trimStart_cases (s : string) :
  (blank s = true /\ Js.trimStart s = EmptyString) \/
  (blank s = false /\
   exists c s', Js.trimStart s = String c s' /\ Js.isWhite c = false).
Proof.
  induction s as [|c s IH]; simpl.
  - left. auto.
  - destruct (Js.isWhite c) eqn:E; simpl.
    + exact IH.
    + right. split; [reflexivity|]. exists c, s. auto.
Qed.

Lemma trimEnd_nonwhite (c : ascii) (s : string) :
  Js.isWhite c = false -> Js.truthy (Js.trimEnd (String c s)) = true.
Proof. intros E. simpl. rewrite E. now destruct (Js.trimEnd s). Qed.

Lemma truthy_trim (s : string) : Js.truthy (Js.trim s) = negb (blank s).
Proof.
  unfold Js.trim.
  destruct (trimStart_cases s) as [[-> ->]|[-> (c & s' & -> & E)]].
  - reflexivity.
  - now apply trimEnd_nonwhite.
Qed.

(** The test [!fullPatch || !fullPatch.trim()] of the main loop. *)
Lemma emptyPatch_test (p : string) :
  negb (Js.truthy p) || negb (Js.truthy (Js.trim p)) = blank p.
Proof.
  rewrite truthy_trim, negb_involutive.
  destruct p as [|c p]; [reflexivity|]. reflexivity.
Qed.

End BlankFacts.

Section ContainsFacts.

Lemma Contains_refl (s : string) : Contains s s.
Proof. exists EmptyString, EmptyString. simpl. now rewrite append_nil_r. Qed.

Lemma Contains_prefix (a b : string) : Contains a (a +++ b).
Proof. exists EmptyString, b. reflexivity. Qed.

Lemma Contains_suffix (a b : string) : Contains b (a +++ b).
Proof. exists a, EmptyString. now rewrite append_nil_r. Qed.

Lemma Contains_trans (a b c : string) : Contains a b -> Contains b c -> Contains a c.
Proof.
  intros (p1 & q1 & ->) (p2 & q2 & ->).
  exists (p2 +++ p1), (q1 +++ q2). now rewrite !append_assoc.
Qed.

End ContainsFacts.

Section PipelineFacts.

Variable cfg : Config.
Variable git : Git.
Variable svc : Services.

Lemma partSummary_truthy (i : Z) (r : Outcome) :
  Js.truthy (partSummary i r) = true.
Proof.
  destruct r as [sum|e]; simpl.
  - destruct (Js.truthy sum) eqn:E; [exact E | reflexivity].
  - reflexivity.
Qed.

Lemma chat_run (prompt : string) (w : World) :
  exists r w', chat svc prompt w = Some (r, w') /\ quiet w w'.
Proof. unfold chat. eexists _, _. split; [reflexivity|]. split; reflexivity. Qed.

Lemma summarizeChunks_spec (m : CommitMeta) (total : Z) (chunks : list string) :
  forall i acc w,
    exists parts w',
      summarizeChunks svc m total i chunks acc w = Some (acc ++ parts, w') /\
      List.length parts = List.length chunks /\
      Forall (fun s => Js.truthy s = true) parts /\
      quiet w w'.
Proof.
  induction chunks as [|c rest IH]; intros i acc w.
  - exists [], w. rewrite app_nil_r. repeat split; constructor.
  - cbn [summarizeChunks]. unfold bind at 1.
    destruct (chat_run (commitChunkPrompt m (i + 1) total c) w)
      as (r & w1 & -> & Hq1 & Hq1').
    destruct (IH (i + 1) (acc ++ [partSummary i r]) w1)
      as (parts & w' & -> & Hlen & Hall & Hq2 & Hq2').
    exists (partSummary i r :: parts), w'. rewrite <- app_assoc.
    split; [reflexivity|]. split; [simpl; now rewrite Hlen|].
    split; [constructor; [apply partSummary_truthy | exact Hall]|].
    split; congruence.
Qed.

Lemma processCommit_blank (acc : list Item) (m : CommitMeta) (w : World) :
  blank (getDiff git (sha m)) = true ->
  processCommit cfg git svc acc m w
  = Some (acc ++ [{| meta := m; summary := emptyDiffSummary |}], w).
Proof. intros Hb. unfold processCommit. now rewrite emptyPatch_test, Hb. Qed.

(** The turn of the loop for a commit with a diff, once the chunks are
    known. *)
Lemma processCommit_chunks (acc : list Item) (m : CommitMeta) (w : World)
  (chunks : list string) :
  blank (getDiff git (sha m)) = false ->
  chunkBySize (splitPatchByFile (getDiff git (sha m))) (DIFF_CHUNK_MAX_CHARS cfg)
  = Some chunks ->
  processCommit cfg git svc acc m w
  = (partSummaries <-
       summarizeChunks svc m (Z.of_nat (List.length chunks)) 0 chunks [] ;;
     r <- chat svc (commitMergePrompt m partSummaries) ;;
     ret (acc ++ [{| meta := m;
                     summary := match r with
                                | Resolved text => text
                                | Rejected _ => Js.join Js.nlnl partSummaries
                                end |}])) w.
Proof.
  intros Hb Hc. unfold processCommit. rewrite emptyPatch_test, Hb.
  unfold bind at 1. unfold liftOption. rewrite Hc. reflexivity.
Qed.

Hypothesis limit_pos : 0 < DIFF_CHUNK_MAX_CHARS cfg.



End PipelineFacts.

(** C6.  A commit whose diff is empty or white space only gets exactly one
    record, the explicit placeholder, which is not the empty string; the
    turn returns, and it leaves the world as it was, so no generation
    request is made for the commit. *)
Theorem empty_diff_placeholder (cfg : Config) (git : Git) (svc : Services)
  (acc : list Item) (m : CommitMeta) (w : World) :
  blank (getDiff git (sha m)) = true ->
  processCommit cfg git svc acc m w
  = Some (acc ++ [{| meta := m; summary := emptyDiffSummary |}], w) /\
  Js.truthy emptyDiffSummary = true.
Proof.
  intros Hb. split; [now apply processCommit_blank | reflexivity].
Qed.

Lemma empty_diff_placeholder_witness :
  let m := metaOf (Sample.config 1) Sample.git
             (shaToBranches (Sample.config 1) Sample.git) "y" in
  processCommit (Sample.config 1) Sample.git Sample.failingService [] m emptyWorld
  = Some ([{| meta := m; summary := emptyDiffSummary |}], emptyWorld) /\
  Js.truthy emptyDiffSummary = true.
Proof.
  intros m.
  apply (empty_diff_placeholder (Sample.config 1) Sample.git Sample.failingService
           [] m emptyWorld).
  reflexivity.
Defined.

Section ChunkOutcomes.

Variable svc : Services.

(** Each summary of the loop is the one of its own request: request number
    [k] carries chunk number [k], and its outcome decides summary number
    [k]. *)
Lemma summarizeChunks_outcomes (m : CommitMeta) (total : Z) (chunks : list string) :
  forall i acc w,
    exists parts prompts w',
      summarizeChunks svc m total i chunks acc w = Some (acc ++ parts, w') /\
      chatLog w' = chatLog w ++ prompts /\
      List.length parts = List.length chunks /\
      forall k chunk,
        nth_error chunks k = Some chunk ->
        nth_error prompts k
        = Some (commitChunkPrompt m (i + Z.of_nat k + 1) total chunk) /\
        nth_error parts k
        = Some (partSummary (i + Z.of_nat k)
                  (chatOutcome svc
                     (chatReply svc (List.length (chatLog w) + k)
                        (commitChunkPrompt m (i + Z.of_nat k + 1) total chunk)))).
Proof.
  induction chunks as [|c rest IH]; intros i acc w.
  - exists [], [], w. rewrite !app_nil_r. repeat split; try reflexivity.
    + now destruct k.
    + now destruct k.
  - cbn [summarizeChunks]. unfold bind at 1. unfold chat at 1.
    set (prompt := commitChunkPrompt m (i + 1) total c).
    set (r := chatOutcome svc (chatReply svc (List.length (chatLog w)) prompt)).
    set (w1 := {| chatLog := chatLog w ++ [prompt];
                  larkLog := larkLog w; console := console w |}).
    destruct (IH (i + 1) (acc ++ [partSummary i r]) w1)
      as (parts & prompts & w' & -> & Hlog & Hlen & Hk).
    exists (partSummary i r :: parts), (prompt :: prompts), w'.
    rewrite <- app_assoc. split; [reflexivity|].
    split; [rewrite Hlog; unfold w1; cbn [chatLog]; now rewrite <- app_assoc|].
    split; [simpl; now rewrite Hlen|].
    intros [|k] chunk Hchunk.
    + injection Hchunk as <-. cbn [nth_error].
      rewrite Z.add_0_r, Nat.add_0_r. split; reflexivity.
    + cbn [nth_error] in *. destruct (Hk k chunk Hchunk) as [Hp Hs].
      unfold w1 in Hs. cbn [chatLog] in Hs. rewrite length_app in Hs. simpl in Hs.
      replace (i + 1 + Z.of_nat k) with (i + Z.of_nat (S k)) in Hp, Hs by lia.
      replace (List.length (chatLog w) + 1 + k)%nat
        with (List.length (chatLog w) + S k)%nat in Hs by lia.
      split; assumption.
Qed.

End ChunkOutcomes.

(** C10.  The loop over the chunks makes one request per chunk, and the
    summary it accumulates for a chunk is decided by the outcome of that
    chunk's own request: the failure placeholder with the error when the
    request is rejected, the empty-result placeholder when it resolves to
    the empty string, and the resolved text otherwise.  So every accumulated
    summary is a non-empty string. *)
Theorem chunk_summaries_never_empty (svc : Services) (m : CommitMeta) (total : Z)
  (chunks : list string) (w : World) :
  exists parts prompts w',
    summarizeChunks svc m total 0 chunks [] w = Some (parts, w') /\
    chatLog w' = chatLog w ++ prompts /\
    List.length parts = List.length chunks /\
    Forall (fun s => s <> EmptyString) parts /\
    forall k chunk,
      nth_error chunks k = Some chunk ->
      let prompt := commitChunkPrompt m (Z.of_nat k + 1) total chunk in
      nth_error prompts k = Some prompt /\
      match chatOutcome svc (chatReply svc (List.length (chatLog w) + k) prompt) with
      | Rejected e =>
          nth_error parts k
          = Some ("（片段" +++ Js.ofZ (Z.of_nat k + 1) +++ "调用失败：" +++ e +++ "）")
      | Resolved text =>
          nth_error parts k
          = Some (if Js.truthy text then text
                  else "（片段" +++ Js.ofZ (Z.of_nat k + 1) +++ "摘要为空）")
      end.
Proof.
  destruct (summarizeChunks_outcomes svc m total chunks 0 [] w)
    as (parts & prompts & w' & Hrun & Hlog & Hlen & Hk).
  cbn [app] in Hrun.
  exists parts, prompts, w'. split; [exact Hrun|]. split; [exact Hlog|].
  split; [exact Hlen|]. split.
  - destruct (summarizeChunks_spec svc m total chunks 0 [] w)
      as (parts' & w'' & Hrun' & _ & Hall & _).
    cbn [app] in Hrun'. rewrite Hrun in Hrun'. injection Hrun' as <- _.
    eapply Forall_impl; [|exact Hall]. intros s Hs. now apply truthy_iff.
  - intros k chunk Hchunk prompt. destruct (Hk k chunk Hchunk) as [Hp Hs].
    cbn [Z.add] in Hp, Hs. split; [exact Hp|].
    fold prompt in Hs. rewrite Hs.
    now destruct (chatOutcome svc _).
Qed.

Lemma chunk_summaries_never_empty_witness :
  let m := metaOf (Sample.config 1) Sample.git
             (shaToBranches (Sample.config 1) Sample.git) "x" in
  exists parts w',
    summarizeChunks Sample.silentThenDownService m 2 0 ["c1"; "c2"] [] emptyWorld
    = Some (parts, w') /\
    nth_error parts 0 = Some "（片段1摘要为空）" /\
    nth_error parts 1 = Some "（片段2调用失败：Error: OpenAI HTTP 500: down）".
Proof.
  intros m.
  destruct (chunk_summaries_never_empty Sample.silentThenDownService m 2
              ["c1"; "c2"] emptyWorld)
    as (parts & prompts & w' & Hrun & _ & _ & _ & Hk).
  exists parts, w'. split; [exact Hrun|]. split.
  - exact (proj2 (Hk 0%nat "c1" eq_refl)).
  - exact (proj2 (Hk 1%nat "c2" eq_refl)).
Defined.

(** C8, as the code has it.  When the request that merges the chunk
    summaries of a commit is rejected, the summary of the commit is its
    chunk summaries, in chunk order, joined by a blank line; the turn
    returns with that one record added, and the loop goes on with the
    remaining commits. *)
Theorem commit_merge_fallback (cfg : Config) (git : Git) (svc : Services)
  (acc : list Item) (m : CommitMeta) (w : World) :
  0 < DIFF_CHUNK_MAX_CHARS cfg ->
  blank (getDiff git (sha m)) = false ->
  exists chunks parts w1,
    chunkBySize (splitPatchByFile (getDiff git (sha m))) (DIFF_CHUNK_MAX_CHARS cfg)
    = Some chunks /\
    summarizeChunks svc m (Z.of_nat (List.length chunks)) 0 chunks [] w
    = Some (parts, w1) /\
    List.length parts = List.length chunks /\
    forall e w2,
      chat svc (commitMergePrompt m parts) w1 = Some (Rejected e, w2) ->
      let item := {| meta := m; summary := Js.join Js.nlnl parts |} in
      processCommit cfg git svc acc m w = Some (acc ++ [item], w2) /\
      forall rest,
        processCommits cfg git svc acc (m :: rest) w
        = processCommits cfg git svc (acc ++ [item]) rest w2.
Proof.
  intros Hl Hb.
  destruct (chunkBySize_returns (DIFF_CHUNK_MAX_CHARS cfg)
              (splitPatchByFile (getDiff git (sha m))) Hl) as (chunks & Hc).
  destruct (summarizeChunks_spec svc m (Z.of_nat (List.length chunks)) chunks 0 [] w)
    as (parts & w1 & Hs & Hlen & _).
  exists chunks, parts, w1.
  split; [exact Hc|]. split; [exact Hs|]. split; [exact Hlen|].
  intros e w2 Hchat item.
  assert (Hturn : processCommit cfg git svc acc m w = Some (acc ++ [item], w2)).
  { rewrite (processCommit_chunks cfg git svc acc m w chunks Hb Hc).
    unfold bind at 1. rewrite Hs. cbn [app]. unfold bind at 1. rewrite Hchat.
    reflexivity. }
  split; [exact Hturn|].
  intros rest. cbn [processCommits]. unfold bind at 1. rewrite Hturn. reflexivity.
Qed.

Lemma commit_merge_fallback_witness :
  let m := metaOf Sample.smallChunks Sample.git
             (shaToBranches Sample.smallChunks Sample.git) "x" in
  let item := {| meta := m; summary := "A" +++ Js.nlnl +++ "B" |} in
  exists w2,
    processCommit Sample.smallChunks Sample.git Sample.twoAnswersService [] m
      emptyWorld = Some ([item], w2) /\
    forall rest,
      processCommits Sample.smallChunks Sample.git Sample.twoAnswersService []
        (m :: rest) emptyWorld
      = processCommits Sample.smallChunks Sample.git Sample.twoAnswersService
          [item] rest w2.
Proof.
  intros m item.
  destruct (commit_merge_fallback Sample.smallChunks Sample.git
              Sample.twoAnswersService [] m emptyWorld)
    as (chunks & parts & w1 & Hc & Hs & _ & Hf).
  - reflexivity.
  - reflexivity.
  - vm_compute in Hc. injection Hc as <-.
    vm_compute in Hs. injection Hs as <- <-.
    edestruct Hf as [Hp Hrest]; [vm_compute; reflexivity|].
    eexists. split; [exact Hp | exact Hrest].
Defined.

(** C8, as stated, fails for a commit of two chunks: the chunk summaries are
    [A] and [B], the merge request is rejected, and the summary recorded is
    [A], a blank line, [B], not [AB]. *)
Lemma merge_fallback_is_not_plain_concatenation :
  ~ FallbackIsPlainConcatenation Sample.smallChunks Sample.git
      Sample.twoAnswersService
      (metaOf Sample.smallChunks Sample.git
         (shaToBranches Sample.smallChunks Sample.git) "x")
      emptyWorld.
Proof.
  intros H.
  assert (Hbad : exists w2,
             processCommit Sample.smallChunks Sample.git Sample.twoAnswersService []
               (metaOf Sample.smallChunks Sample.git
                  (shaToBranches Sample.smallChunks Sample.git) "x") emptyWorld
             = Some ([{| meta := metaOf Sample.smallChunks Sample.git
                                   (shaToBranches Sample.smallChunks Sample.git) "x";
                         summary := "AB" |}], w2)).
  { eexists. eapply (H ["+x"; "+y"] ["A"; "B"]).
    - vm_compute. reflexivity.
    - vm_compute. reflexivity.
    - vm_compute. reflexivity. }
  destruct Hbad as (w2 & Hbad). vm_compute in Hbad. discriminate Hbad.
Qed.

Section DailyFacts.

Lemma Contains_append_r (x a b : string) : Contains x b -> Contains x (a +++ b).
Proof. intros H. eapply Contains_trans; [exact H | apply Contains_suffix]. Qed.



End DailyFacts.



Section EmptyWindow.

Variable cfg : Config.
Variable git : Git.

Lemma filterSeen_none (index : JsMap.t JsSet.t) (shas : list string) :
  (forall k, JsMap.has index k = false) ->
  forall seen, filterSeen index seen shas = [].
Proof.
  intros Hnone. induction shas as [|s rest IH]; intros seen; simpl; [reflexivity|].
  rewrite Hnone, !IH. now destruct (JsSet.has seen s).
Qed.

(** No commit listed on any tracked branch: the reporting set is empty. *)
Lemma commitShas_empty_window :
  (forall rb, In rb (remoteBranches git) -> branchListing git rb = []) ->
  commitShas cfg git = [].
Proof.
  intros Hempty. apply filterSeen_none. intros k.
  destruct (JsMap.has (shaToBranches cfg git) k) eqn:E; [|reflexivity].
  apply (proj1 (Represents_shaToBranches cfg git k)) in E.
  destruct E as (b & Hb & Hk).
  unfold cappedListing in Hk. rewrite (Hempty b Hb) in Hk.
  unfold Js.sliceFrom in Hk. rewrite skipn_nil in Hk. contradiction.
Qed.

End EmptyWindow.

(** C9.  Once the start checks have passed (the credential is present and
    the repository path, when one is configured, is a checkout), an empty
    reporting set ends the run with exit code 0: no generation request is
    made and nothing is posted to the webhook. *)
Theorem no_commits_no_report (cfg : Config) (git : Git) (svc : Services) (w : World) :
  Js.truthy (OPENAI_API_KEY cfg) = true ->
  REPO_PATH cfg = "." \/ (repoPathExists cfg = true /\ repoPathHasGit cfg = true) ->
  commitShas cfg git = [] ->
  exists w',
    program cfg git svc w = Some (Exit 0, w') /\
    chatLog w' = chatLog w /\
    larkLog w' = larkLog w.
Proof.
  intros Hkey Hpath Hnone. unfold program. rewrite Hkey, Hnone. cbn [negb].
  assert (Hchecks :
            negb (String.eqb (REPO_PATH cfg) ".") && negb (repoPathExists cfg) = false /\
            negb (String.eqb (REPO_PATH cfg) ".") && negb (repoPathHasGit cfg) = false).
  { destruct Hpath as [->|[-> ->]].
    - rewrite String.eqb_refl. auto.
    - rewrite !andb_false_r. auto. }
  destruct Hchecks as [-> ->].
  eexists. split; [reflexivity|]. split; reflexivity.
Qed.

Lemma no_commits_no_report_witness :
  exists w',
    program (Sample.config 200) Sample.quietGit Sample.failingService emptyWorld
    = Some (Exit 0, w') /\
    chatLog w' = [] /\
    larkLog w' = [].
Proof.
  apply (no_commits_no_report (Sample.config 200) Sample.quietGit
           Sample.failingService emptyWorld).
  - reflexivity.
  - left. reflexivity.
  - vm_compute. reflexivity.
Defined.

(** * Further properties of the script *)

(** ** Trimming, listings and the diff of a commit *)

Section TrimFacts.

Lemma trimEnd_cons (c : ascii) (s : string) :
  Js.trimEnd (String c s)
  = match Js.trimEnd s with
    | EmptyString => if Js.isWhite c then EmptyString else String c EmptyString
    | String d r => String c (String d r)
    end.
Proof. reflexivity. Qed.

Lemma trimEnd_idem (s : string) : Js.trimEnd (Js.trimEnd s) = Js.trimEnd s.
Proof.
  induction s as [|c s IH]; [reflexivity|].
  rewrite trimEnd_cons. destruct (Js.trimEnd s) as [|d r] eqn:E.
  - destruct (Js.isWhite c) eqn:Ec; [reflexivity|].
    rewrite trimEnd_cons. cbn [Js.trimEnd]. now rewrite Ec.
  - rewrite trimEnd_cons, IH. reflexivity.
Qed.

Lemma trimEnd_head (c : ascii) (s : string) :
  Js.isWhite c = false -> exists r, Js.trimEnd (String c s) = String c r.
Proof.
  intros Ec. cbn [Js.trimEnd]. rewrite Ec.
  destruct (Js.trimEnd s); eauto.
Qed.

Lemma trim_head (s : string) :
  Js.trim s = EmptyString \/
  exists c r, Js.trim s = String c r /\ Js.isWhite c = false.
Proof.
  unfold Js.trim.
  destruct (trimStart_cases s) as [[_ ->]|[_ (c & s' & -> & Ec)]].
  - now left.
  - right. destruct (trimEnd_head c s' Ec) as (r & ->). eauto.
Qed.

Lemma trim_idem (s : string) : Js.trim (Js.trim s) = Js.trim s.
Proof.
  destruct (trim_head s) as [E|(c & r & E & Ec)].
  - rewrite E. reflexivity.
  - unfold Js.trim at 1. rewrite E. cbn [Js.trimStart]. rewrite Ec.
    rewrite <- E. unfold Js.trim. apply trimEnd_idem.
Qed.

Lemma trim_empty_blank (s : string) : Js.trim s = EmptyString <-> blank s = true.
Proof.
  rewrite <- truthy_false, truthy_trim. destruct (blank s); simpl; split; congruence.
Qed.

Lemma lines_clean (s : string) :
  Forall (fun l => l <> EmptyString /\ Trimmed l) (Js.lines s).
Proof.
  unfold Js.lines. apply Forall_forall. intros l Hl.
  apply filter_In in Hl. destruct Hl as [Hl Ht]. split.
  - now apply truthy_iff.
  - apply in_map_iff in Hl. destruct Hl as (x & <- & _). apply trim_idem.
Qed.

Lemma lines_blank (stdout : string) : blank stdout = true -> Js.lines (sh stdout) = [].
Proof.
  intros Hb. unfold sh. apply trim_empty_blank in Hb. rewrite Hb. reflexivity.
Qed.

End TrimFacts.

(** X1.  Every name of a remote branch and every hash the collector reads
    from a listing is a non-empty text without white space around it, and a
    branch whose listing command prints nothing or white space only
    contributes no commit. *)
Theorem listings_are_clean (cfg : Config) (git : Git) :
  Forall (fun l => l <> EmptyString /\ Trimmed l) (remoteBranches git) /\
  Forall (fun l => l <> EmptyString /\ Trimmed l) (allShasOrdered git) /\
  (forall rb, Forall (fun l => l <> EmptyString /\ Trimmed l) (branchListing git rb)) /\
  (forall rb, blank (logBranch git rb) = true -> cappedListing cfg git rb = []).
Proof.
  repeat split; try (intros rb); try apply lines_clean.
  intros Hb. unfold cappedListing, branchListing. rewrite (lines_blank _ Hb).
  unfold Js.sliceFrom. apply skipn_nil.
Qed.

Lemma listings_are_clean_witness :
  cappedListing (Sample.config 200) Sample.quietGit "origin/main" = [].
Proof.
  apply (proj2 (proj2 (proj2 (listings_are_clean (Sample.config 200) Sample.quietGit)))).
  reflexivity.
Defined.

Section MarkerCount.

Lemma scan_lengths (s : string) :
  (forall atStart cur x,
      List.length (splitMarkersFrom false atStart cur s)
      = S (List.length (markerLinesFrom false atStart x s))) /\
  (forall atStart cur mcur,
      List.length (splitMarkersFrom true atStart cur s)
      = List.length (markerLinesFrom true atStart mcur s)).
Proof.
  induction s as [|c s [IHa IHb]]; split; intros; try reflexivity.
  - cbn [splitMarkersFrom markerLinesFrom].
    destruct (atStart && String.prefix marker (String c s)).
    + cbn [List.length]. now rewrite (IHb false EmptyString (String c EmptyString)).
    + apply IHa.
  - cbn [splitMarkersFrom markerLinesFrom].
    destruct (Js.isLineTerminator c).
    + cbn [List.length]. apply IHa.
    + apply IHb.
Qed.

Lemma filter_length_bound {A : Type} (f : A -> bool) (l : list A) :
  (List.length (filter f l) <= List.length l)%nat.
Proof.
  induction l as [|x l IH]; simpl; [lia|]. destruct (f x); simpl; lia.
Qed.

End MarkerCount.

(** X3.  The file units of a patch are non-empty texts without white space
    around them, and there are at most as many of them as the patch has
    marker lines, plus one for the text before the first marker line. *)
Theorem splitPatchByFile_units_clean (patch : string) :
  Forall (fun u => u <> EmptyString /\ Trimmed u) (splitPatchByFile patch) /\
  (List.length (splitPatchByFile patch) <= List.length (markerLines patch) + 1)%nat.
Proof.
  rewrite splitPatchByFile_units. split.
  - apply Forall_forall. intros u Hu. apply filter_In in Hu. destruct Hu as [Hu Ht].
    split; [now apply truthy_iff|].
    apply in_map_iff in Hu. destruct Hu as (x & <- & _). apply trim_idem.
  - eapply Nat.le_trans; [apply filter_length_bound|].
    rewrite length_map. unfold splitMarkers, markerLines.
    rewrite (proj1 (scan_lengths patch) true EmptyString EmptyString). lia.
Qed.

(** ** Splitting on a character: the parent of a commit and the environment file *)

Section SplitFacts2.

Variable sep : ascii.

Lemma splitFrom_nonempty (cur s : string) : Js.splitFrom sep cur s <> [].
Proof.
  revert cur. induction s as [|c s IH]; intros cur; simpl; [discriminate|].
  destruct (Ascii.eqb c sep); [discriminate | apply IH].
Qed.

Lemma splitFrom_noChar (cur s : string) :
  noChar sep s = true -> Js.splitFrom sep cur s = [cur +++ s].
Proof.
  revert cur. induction s as [|c s IH]; intros cur H; simpl in *.
  - now rewrite append_nil_r.
  - apply andb_prop in H. destruct H as [Hc Hs].
    apply negb_true_iff in Hc. rewrite Hc, (IH _ Hs), append_assoc. reflexivity.
Qed.

Lemma splitFrom_app (cur a b : string) :
  noChar sep a = true ->
  Js.splitFrom sep cur (a +++ String sep b)
  = (cur +++ a) :: Js.splitFrom sep EmptyString b.
Proof.
  revert cur. induction a as [|c a IH]; intros cur H; simpl in *.
  - now rewrite Ascii.eqb_refl, append_nil_r.
  - apply andb_prop in H. destruct H as [Hc Ha].
    apply negb_true_iff in Hc. rewrite Hc, (IH _ Ha), append_assoc. reflexivity.
Qed.

Lemma prefix_char (c : ascii) (s : string) :
  String.prefix (String c EmptyString) s = true <-> exists t, s = String c t.
Proof.
  destruct s as [|d t]; cbn [String.prefix].
  - split; [discriminate | intros (t & E); discriminate E].
  - destruct (ascii_dec c d) as [<-|Hne].
    + split; [eauto | now destruct t].
    + split; [discriminate | intros (t' & E); congruence].
Qed.

(** Joining the pieces with the separator gives the text back. *)
Lemma join_splitFrom (cur s : string) :
  Js.join (String sep EmptyString) (Js.splitFrom sep cur s) = cur +++ s.
Proof.
  revert cur. induction s as [|c s IH]; intros cur; simpl.
  - now rewrite append_nil_r.
  - destruct (Ascii.eqb_spec c sep) as [->|_].
    + specialize (IH EmptyString).
      destruct (Js.splitFrom sep EmptyString s) as [|x l] eqn:E;
        [now apply splitFrom_nonempty in E|].
      rewrite join_cons2, IH. reflexivity.
    + rewrite IH, append_assoc. reflexivity.
Qed.

End SplitFacts2.

(** X4.  The base of the diff of a commit: when the parents line holds no
    space (a root commit) the diff is taken against the empty tree; when it
    holds the hash, a space and a parent, the diff is taken against that
    parent, the first one if more follow. *)
Theorem diff_base_of_commit (git : Git) (s : string) :
  (noChar " " (sh (revListParents git s)) = true ->
   getParentSha git s = None /\
   getDiff git s = sh (diffOutput git (sh (emptyTree git)) s)) /\
  (forall a p tail,
      sh (revListParents git s) = a +++ " " +++ p +++ tail ->
      Js.truthy a = true -> noChar " " a = true ->
      Js.truthy p = true -> noChar " " p = true ->
      tail = EmptyString \/ String.prefix " " tail = true ->
      getParentSha git s = Some p /\
      getDiff git s = sh (diffOutput git p s)).
Proof.
  split.
  - intros H.
    assert (Hp : getParentSha git s = None).
    { unfold getParentSha, Js.split. rewrite (splitFrom_noChar _ _ _ H). simpl.
      now destruct (Js.truthy (sh (revListParents git s))). }
    split; [exact Hp|]. unfold getDiff. now rewrite Hp.
  - intros a p tail E Ha Hna Hp Hnp Htail.
    assert (Hparent : getParentSha git s = Some p).
    { unfold getParentSha, Js.split. rewrite E.
      change (a +++ " " +++ p +++ tail) with (a +++ String " " (p +++ tail)).
      rewrite (splitFrom_app _ _ _ _ Hna). cbn [append filter]. rewrite Ha.
      destruct Htail as [->|Ht].
      + rewrite append_nil_r, (splitFrom_noChar _ _ _ Hnp). simpl. now rewrite Hp.
      + apply prefix_char in Ht. destruct Ht as (t & ->).
        rewrite (splitFrom_app _ _ _ _ Hnp). cbn [append filter]. now rewrite Hp. }
    split; [exact Hparent|]. unfold getDiff. now rewrite Hparent.
Qed.

Lemma diff_base_of_commit_witness :
  getParentSha Sample.git "x" = Some "parent" /\
  getParentSha Sample.quietGit "x" = None.
Proof.
  split.
  - apply (proj2 (diff_base_of_commit Sample.git "x") "x" "parent" EmptyString);
      (reflexivity || (left; reflexivity)).
  - apply (proj1 (diff_base_of_commit Sample.quietGit "x")). reflexivity.
Defined.

Section LoadEnvFacts.

Lemma loadEnvLine_cases (env : JsMap.t string) (line : string) :
  loadEnvLine env line = env \/
  exists key value,
    envTruthy env key = false /\ loadEnvLine env line = JsMap.set env key value.
Proof.
  unfold loadEnvLine.
  destruct (Js.truthy (Js.trim line) && negb (String.prefix "#" (Js.trim line)));
    [|now left].
  destruct (Js.split "=" (Js.trim line)) as [|key valueParts]; [now left|].
  destruct (Js.truthy key && (0 <? Z.of_nat (List.length valueParts))); [|now left].
  destruct (envTruthy env key) eqn:E; [now left|].
  right. eexists _, _. split; [exact E | reflexivity].
Qed.

Lemma loadEnvLine_keeps (env : JsMap.t string) (line key : string) :
  envTruthy env key = true ->
  JsMap.get (loadEnvLine env line) key = JsMap.get env key.
Proof.
  intros Hk. destruct (loadEnvLine_cases env line) as [->|(k & v & Hf & ->)];
    [reflexivity|].
  rewrite get_set. destruct (String.eqb_spec k key) as [->|_]; [congruence | reflexivity].
Qed.

Lemma loadEnvLine_has (env : JsMap.t string) (line key : string) :
  JsMap.has env key = true -> JsMap.has (loadEnvLine env line) key = true.
Proof.
  intros Hk. destruct (loadEnvLine_cases env line) as [->|(k & v & Hf & ->)];
    [exact Hk|].
  unfold JsMap.has in *. rewrite get_set. now destruct (String.eqb k key).
Qed.

Lemma loadEnv_lines_keep (lines : list string) (key : string) :
  forall env,
    (envTruthy env key = true ->
     JsMap.get (fold_left loadEnvLine lines env) key = JsMap.get env key) /\
    (JsMap.has env key = true ->
     JsMap.has (fold_left loadEnvLine lines env) key = true).
Proof.
  induction lines as [|line lines IH]; intros env; simpl; [auto|].
  destruct (IH (loadEnvLine env line)) as [IH1 IH2]. split.
  - intros Hk. rewrite IH1; [now apply loadEnvLine_keeps|].
    unfold envTruthy in *. now rewrite loadEnvLine_keeps.
  - intros Hk. now apply IH2, loadEnvLine_has.
Qed.

End LoadEnvFacts.

(** X5.  Loading the environment file never changes a variable that is
    already set to a non-empty text, and never removes a variable: the
    process environment wins over the file. *)
Theorem loadEnv_keeps_set_variables (file : option string) (env : JsMap.t string)
  (key : string) :
  (envTruthy env key = true ->
   JsMap.get (fst (loadEnv file env)) key = JsMap.get env key) /\
  (JsMap.has env key = true -> JsMap.has (fst (loadEnv file env)) key = true).
Proof.
  destruct file as [content|]; simpl; [|auto]. apply loadEnv_lines_keep.
Qed.

Lemma loadEnv_keeps_set_variables_witness :
  JsMap.get (fst (loadEnv (Some "REPO=file/repo") [("REPO", "env/repo")])) "REPO"
  = Some "env/repo".
Proof.
  apply (proj1 (loadEnv_keeps_set_variables (Some "REPO=file/repo")
                  [("REPO", "env/repo")] "REPO")).
  reflexivity.
Defined.

(** X6.  A line of ASCII characters of the environment file whose trimmed
    text is a name, an equals sign and a rest, where the name is not empty,
    holds no equals sign and does not start a comment, sets the name to the
    trimmed rest (equals signs of the rest included) when reading the name
    from the environment gives nothing or the empty text, and changes
    nothing otherwise; reading a name that every object inherits
    ([toString], [constructor], [__proto__], ...) gives a value, so such a
    line changes nothing.  The name is taken as written, white space before
    the equals sign included. *)
Theorem loadEnvLine_assignment (env : JsMap.t string) (line key rest : string) :
  asciiOnly line = true ->
  Js.trim line = key +++ "=" +++ rest ->
  Js.truthy key = true ->
  noChar "=" key = true ->
  String.prefix "#" key = false ->
  loadEnvLine env line
  = (if envTruthy env key then env else JsMap.set env key (Js.trim rest)) /\
  (envTruthy env key = false ->
   JsMap.get (loadEnvLine env line) key = Some (Js.trim rest)).
Proof.
  intros _ E Hkey Hno Hhash.
  assert (Hline : loadEnvLine env line
                  = if envTruthy env key then env
                    else JsMap.set env key (Js.trim rest)).
  { unfold loadEnvLine. rewrite E.
    assert (Ht : Js.truthy (key +++ "=" +++ rest) = true)
      by (destruct key; [discriminate | reflexivity]).
    assert (Hp : String.prefix "#" (key +++ "=" +++ rest) = false).
    { destruct (String.prefix "#" (key +++ "=" +++ rest)) eqn:Ep; [|reflexivity].
      apply prefix_char in Ep. destruct Ep as (t & Ep).
      destruct key as [|c k]; [discriminate|]. injection Ep as -> _.
      assert (Hk : String.prefix "#" (String "#" k) = true)
        by (apply prefix_char; eauto).
      congruence. }
    rewrite Ht, Hp. cbn [negb andb]. unfold Js.split.
    change (key +++ "=" +++ rest) with (key +++ String "=" rest).
    rewrite (splitFrom_app _ _ _ _ Hno). cbn [append]. rewrite Hkey. cbn [andb].
    assert (Hlen : (0 <? Z.of_nat (List.length (Js.splitFrom "=" EmptyString rest)))
                   = true).
    { destruct (Js.splitFrom "=" EmptyString rest) eqn:Es;
        [now apply splitFrom_nonempty in Es | reflexivity]. }
    rewrite Hlen.
    change "="%string with (String "="%char EmptyString).
    rewrite join_splitFrom. cbn [append].
    now destruct (envTruthy env key). }
  split; [exact Hline|].
  intros Hunset. rewrite Hline, Hunset, get_set, String.eqb_refl. reflexivity.
Qed.

Lemma loadEnvLine_assignment_witness :
  JsMap.get (loadEnvLine [] "  OPENAI_BASE_URL=https://host/v1?a=b  ") "OPENAI_BASE_URL"
  = Some "https://host/v1?a=b" /\
  loadEnvLine [] "toString=abc" = [].
Proof.
  split.
  - apply (proj2 (loadEnvLine_assignment [] "  OPENAI_BASE_URL=https://host/v1?a=b  "
                    "OPENAI_BASE_URL" "https://host/v1?a=b"
                    eq_refl eq_refl eq_refl eq_refl eq_refl)).
    reflexivity.
  - exact (proj1 (loadEnvLine_assignment [] "toString=abc" "toString" "abc"
                    eq_refl eq_refl eq_refl eq_refl eq_refl)).
Defined.

(** X7.  The environment is left as it is when the file cannot be read, and
    when each of its lines is, once trimmed, empty, a comment, without an
    equals sign, or starting with one. *)
Theorem loadEnv_ignores (env : JsMap.t string) :
  fst (loadEnv None env) = env /\
  forall content,
    Forall (fun line =>
              Js.trim line = EmptyString \/
              String.prefix "#" (Js.trim line) = true \/
              noChar "=" (Js.trim line) = true \/
              String.prefix "=" (Js.trim line) = true)
      (Js.split Js.LF content) ->
    fst (loadEnv (Some content) env) = env.
Proof.
  split; [reflexivity|]. intros content H. simpl.
  induction H as [|line lines Hline _ IH]; [reflexivity|].
  simpl. replace (loadEnvLine env line) with env; [exact IH|].
  unfold loadEnvLine. destruct Hline as [E|[E|[E|E]]].
  - now rewrite E.
  - rewrite E. now rewrite andb_false_r.
  - destruct (Js.truthy (Js.trim line) && negb (String.prefix "#" (Js.trim line)));
      [|reflexivity].
    unfold Js.split. rewrite (splitFrom_noChar _ _ _ E). simpl.
    now rewrite andb_false_r.
  - destruct (Js.truthy (Js.trim line) && negb (String.prefix "#" (Js.trim line)));
      [|reflexivity].
    apply prefix_char in E. destruct E as (t & ->). reflexivity.
Qed.

Lemma loadEnv_ignores_witness :
  fst (loadEnv (Some ("# settings" +++ Js.nl +++ Js.nl +++ "REPO" +++ Js.nl +++ "=x"))
         [("REPO", "env/repo")])
  = [("REPO", "env/repo")].
Proof.
  apply (proj2 (loadEnv_ignores [("REPO", "env/repo")])).
  vm_compute.
  repeat (apply Forall_cons;
          [first [ left; reflexivity
                 | right; left; reflexivity
                 | right; right; left; reflexivity
                 | right; right; right; reflexivity ]|]).
  apply Forall_nil.
Defined.

(** ** The collector: cap, membership and branch order *)

(** X8.  With a cap of at least one, the capped listing of a branch is the
    end of its listing: the listing is some dropped older entries followed
    by the retained ones, the retained ones are the cap or the whole listing
    if that is shorter, and a listing within the cap is kept whole. *)
Theorem per_branch_cap_positive (cfg : Config) (git : Git) (rb : string) :
  0 < PER_BRANCH_LIMIT cfg ->
  exists dropped,
    branchListing git rb = dropped ++ cappedListing cfg git rb /\
    List.length (cappedListing cfg git rb)
    = Nat.min (Z.to_nat (PER_BRANCH_LIMIT cfg)) (List.length (branchListing git rb)) /\
    (Z.of_nat (List.length (branchListing git rb)) <= PER_BRANCH_LIMIT cfg ->
     cappedListing cfg git rb = branchListing git rb).
Proof.
  intros Hcap. destruct (cappedListing_positive cfg git rb Hcap) as (E & _ & _).
  rewrite E.
  exists (firstn (List.length (branchListing git rb)
                  - Z.to_nat (PER_BRANCH_LIMIT cfg)) (branchListing git rb)).
  split; [symmetry; apply firstn_skipn|]. split.
  - rewrite length_skipn. lia.
  - intros Hfit.
    replace (List.length (branchListing git rb) - Z.to_nat (PER_BRANCH_LIMIT cfg))%nat
      with 0%nat by lia.
    reflexivity.
Qed.

Lemma per_branch_cap_positive_witness :
  exists dropped,
    branchListing Sample.git "origin/b"
    = dropped ++ cappedListing (Sample.config 1) Sample.git "origin/b" /\
    List.length (cappedListing (Sample.config 1) Sample.git "origin/b")
    = Nat.min (Z.to_nat 1) (List.length (branchListing Sample.git "origin/b")) /\
    (Z.of_nat (List.length (branchListing Sample.git "origin/b")) <= 1 ->
     cappedListing (Sample.config 1) Sample.git "origin/b"
     = branchListing Sample.git "origin/b").
Proof.
  apply (per_branch_cap_positive (Sample.config 1) Sample.git "origin/b").
  reflexivity.
Defined.

Section MembershipFacts.

Lemma filterSeen_complete (index : JsMap.t JsSet.t) (shas : list string) (x : string) :
  JsMap.has index x = true ->
  forall seen, In x shas -> ~ In x seen -> In x (filterSeen index seen shas).
Proof.
  intros Hx. induction shas as [|s rest IH]; intros seen Hin Hseen; [contradiction|].
  cbn [filterSeen]. destruct (String.eqb_spec s x) as [->|Hne].
  - assert (Es : JsSet.has seen x = false).
    { destruct (JsSet.has seen x) eqn:E; [|reflexivity].
      apply set_has_in in E. contradiction. }
    rewrite Es, Hx. now left.
  - destruct Hin as [E|Hin]; [congruence|].
    destruct (JsSet.has seen s); [now apply IH|].
    destruct (JsMap.has index s); cbn [negb]; [|now apply IH].
    right. apply IH; [exact Hin|].
    intros H. apply set_add_in in H. destruct H; [contradiction | congruence].
Qed.

End MembershipFacts.

(** X9.  A commit is reported exactly when the union listing holds it and
    the capped listing of at least one tracked remote branch holds it; a
    commit that only other refs reach is left out. *)
Theorem reported_commits_characterised (cfg : Config) (git : Git) (s : string) :
  In s (commitShas cfg git) <->
  In s (allShasOrdered git) /\
  exists rb, In rb (remoteBranches git) /\ In s (cappedListing cfg git rb).
Proof.
  unfold commitShas.
  pose proof (proj1 (Represents_shaToBranches cfg git s)) as Hhas. split.
  - intros H. apply filterSeen_spec in H. destruct H as (_ & Hin & Hidx).
    split; [exact Hin|]. now apply Hhas.
  - intros [Hin Hrb]. apply filterSeen_complete; [now apply Hhas | exact Hin | auto].
Qed.

Section SortFacts.

(** The comparison of [String] is the one of the ordered type of strings. *)
Lemma compare_agree (a b : string) :
  String.compare a b = OrdersEx.String_as_OT.compare a b.
Proof. reflexivity. Qed.

Lemma leb_lt_or_eq (x y : string) :
  String.leb x y = true <-> x = y \/ OrdersEx.String_as_OT.lt x y.
Proof.
  unfold String.leb.
  change (String.compare x y) with (OrdersEx.String_as_OT.compare x y).
  destruct (OrdersEx.String_as_OT.compare_spec x y) as [E|L|G].
  - split; auto.
  - split; auto.
  - split; [discriminate|]. intros [E|L].
    + subst. exfalso. eapply irreflexivity; eassumption.
    + exfalso. eapply irreflexivity. etransitivity; eassumption.
Qed.

Lemma leb_trans (a b c : string) :
  String.leb a b = true -> String.leb b c = true -> String.leb a c = true.
Proof.
  rewrite !leb_lt_or_eq. intros [->|L1] [->|L2]; auto.
  right. etransitivity; eassumption.
Qed.

Lemma leb_ltb (a b : string) :
  String.leb a b = true -> a <> b -> String.ltb a b = true.
Proof.
  unfold String.leb, String.ltb. intros Hle Hne.
  destruct (String.compare a b) eqn:E; try reflexivity; try discriminate.
  now apply String.compare_eq_iff in E.
Qed.

Lemma sort_strongly_sorted (l : list string) :
  StronglySorted (fun a b => String.leb a b = true) (StringSort.sort l).
Proof.
  apply (StringSort.StronglySorted_sort l).
  intros a b c. apply leb_trans.
Qed.

(** Two sorted lists with the same members, counted, are equal. *)
Lemma sorted_permutation_eq (l1 : list string) :
  forall l2,
    StronglySorted (fun a b => String.leb a b = true) l1 ->
    StronglySorted (fun a b => String.leb a b = true) l2 ->
    Permutation l1 l2 -> l1 = l2.
Proof.
  induction l1 as [|a l1 IH]; intros l2 H1 H2 Hp.
  - now apply Permutation_nil in Hp.
  - destruct l2 as [|b l2];
      [apply Permutation_sym, Permutation_nil in Hp; discriminate|].
    inversion H1 as [|? ? Hs1 Ha]; subst. inversion H2 as [|? ? Hs2 Hb]; subst.
    assert (E : a = b).
    { assert (Hab : In a (b :: l2)) by (eapply Permutation_in; [exact Hp | now left]).
      assert (Hba : In b (a :: l1))
        by (eapply Permutation_in; [apply Permutation_sym, Hp | now left]).
      destruct Hab as [->|Hab]; [reflexivity|].
      destruct Hba as [->|Hba]; [reflexivity|].
      apply String.leb_antisym.
      - rewrite Forall_forall in Ha. now apply Ha.
      - rewrite Forall_forall in Hb. now apply Hb. }
    subst b. f_equal. apply IH; try assumption.
    eapply Permutation_cons_inv. exact Hp.
Qed.

Lemma strongly_sorted_strict (l : list string) :
  StronglySorted (fun a b => String.leb a b = true) l -> NoDup l ->
  StronglySorted (fun a b => String.ltb a b = true) l.
Proof.
  induction 1 as [|a l Hs IH Ha]; intros Hnd; [constructor|].
  inversion Hnd as [|? ? Hnotin Hnd']; subst.
  constructor; [now apply IH|].
  rewrite Forall_forall in *. intros x Hx.
  apply leb_ltb; [now apply Ha|]. intros ->. contradiction.
Qed.

End SortFacts.

Section BranchOrder.

Variable cfg : Config.
Variables git git' : Git.
Hypothesis same_branches : Permutation (remoteBranches git) (remoteBranches git').
Hypothesis same_logs : forall rb, logBranch git' rb = logBranch git rb.
Hypothesis same_union : logAll git' = logAll git.

Lemma cappedListing_same (rb : string) :
  cappedListing cfg git' rb = cappedListing cfg git rb.
Proof. unfold cappedListing, branchListing. now rewrite same_logs. Qed.

Lemma index_same_relation (k b : string) :
  (In b (remoteBranches git') /\ In k (cappedListing cfg git' b)) <->
  (In b (remoteBranches git) /\ In k (cappedListing cfg git b)).
Proof.
  rewrite cappedListing_same. split; intros [Hb Hk]; split; trivial.
  - eapply Permutation_in; [apply Permutation_sym|]; eassumption.
  - eapply Permutation_in; eassumption.
Qed.

Lemma commitShas_same : commitShas cfg git' = commitShas cfg git.
Proof.
  unfold commitShas, allShasOrdered. rewrite same_union.
  apply filterSeen_ext. intros k. apply eq_iff_eq_true.
  rewrite (proj1 (Represents_shaToBranches cfg git' k)).
  rewrite (proj1 (Represents_shaToBranches cfg git k)).
  split; intros (b & Hb); exists b; now apply index_same_relation.
Qed.

Lemma sorted_branches_same (s : string) :
  StringSort.sort (branchesOf (shaToBranches cfg git') s)
  = StringSort.sort (branchesOf (shaToBranches cfg git) s).
Proof.
  destruct (Represents_shaToBranches cfg git' s) as (_ & Hin' & Hnd').
  destruct (Represents_shaToBranches cfg git s) as (_ & Hin & Hnd).
  apply sorted_permutation_eq; try apply sort_strongly_sorted.
  eapply Permutation_trans; [apply Permutation_sym, StringSort.Permuted_sort|].
  eapply Permutation_trans; [|apply StringSort.Permuted_sort].
  apply NoDup_Permutation; try assumption.
  intros b. rewrite Hin', Hin. apply index_same_relation.
Qed.

End BranchOrder.

(** X10.  The records do not depend on the order in which the remote
    branches are enumerated: two repositories that answer every command
    alike, apart from the order of the branch list, give the same records,
    branch lists included. *)
Theorem commitMetas_branch_order (cfg : Config) (git git' : Git) :
  Permutation (remoteBranches git) (remoteBranches git') ->
  (forall rb, logBranch git' rb = logBranch git rb) ->
  logAll git' = logAll git ->
  (forall s, showSubject git' s = showSubject git s) ->
  (forall s, showAuthor git' s = showAuthor git s) ->
  commitMetas cfg git' = commitMetas cfg git.
Proof.
  intros Hperm Hlog Hall Hsubj Hauth. unfold commitMetas.
  rewrite (commitShas_same cfg git git' Hperm Hlog Hall).
  apply map_ext. intros s. unfold metaOf.
  rewrite Hsubj, Hauth, (sorted_branches_same cfg git git' Hperm Hlog s).
  reflexivity.
Qed.

Lemma commitMetas_branch_order_witness :
  let swapped :=
    {| forEachRef := "origin/b" +++ Js.nl +++ "origin/a";
       logBranch := logBranch Sample.git;
       logAll := logAll Sample.git;
       showSubject := showSubject Sample.git;
       showAuthor := showAuthor Sample.git;
       revListParents := revListParents Sample.git;
       emptyTree := emptyTree Sample.git;
       diffOutput := diffOutput Sample.git |} in
  commitMetas (Sample.config 200) swapped = commitMetas (Sample.config 200) Sample.git.
Proof.
  intros swapped.
  apply (commitMetas_branch_order (Sample.config 200) Sample.git swapped);
    try reflexivity.
  vm_compute. apply perm_swap.
Defined.

(** X11.  The branch list of every record is in strictly increasing order of
    code units. *)
Theorem record_branches_sorted (cfg : Config) (git : Git) (m : CommitMeta) :
  In m (commitMetas cfg git) ->
  StronglySorted (fun a b => String.ltb a b = true) (branches m).
Proof.
  intros Hm. apply in_map_iff in Hm. destruct Hm as (s & <- & _).
  cbn [branches metaOf]. apply strongly_sorted_strict; [apply sort_strongly_sorted|].
  destruct (Represents_shaToBranches cfg git s) as (_ & _ & Hnd).
  eapply Permutation_NoDup; [apply StringSort.Permuted_sort | exact Hnd].
Qed.

Lemma record_branches_sorted_witness :
  StronglySorted (fun a b => String.ltb a b = true) ["origin/a"; "origin/b"].
Proof.
  apply (record_branches_sorted (Sample.config 200) Sample.git
           (metaOf (Sample.config 200) Sample.git
              (shaToBranches (Sample.config 200) Sample.git) "x")).
  vm_compute. auto.
Defined.

(** ** The chunker: one chunk, no empty chunk, and the limit that never ends *)

Section ChunkerMore.

Lemma join_prefix_len (g r : list string) :
  Js.len (Js.join Js.nlnl g) <= Js.len (Js.join Js.nlnl (g ++ r)).
Proof.
  induction r as [|x r IH] using rev_ind.
  - rewrite app_nil_r. lia.
  - rewrite app_assoc. destruct (g ++ r) as [|y l] eqn:E.
    + apply app_eq_nil in E. destruct E as [-> _]. apply len_nonneg.
    + rewrite join_snoc, !len_append by discriminate.
      pose proof (len_nonneg Js.nlnl). pose proof (len_nonneg x). lia.
Qed.

Lemma chunkLoop_single (limit : Z) (rest : list string) :
  forall g,
    Forall (fun u => Js.truthy u = true) g ->
    Forall (fun u => Js.truthy u = true) rest ->
    Js.len (Js.join Js.nlnl (g ++ rest)) <= limit ->
    chunkLoop limit rest [] (Js.join Js.nlnl g)
    = Some ([], Js.join Js.nlnl (g ++ rest)).
Proof.
  induction rest as [|p rest IH]; intros g Hg Hrest Hfit.
  - now rewrite app_nil_r.
  - inversion Hrest as [|? ? Hp Hrest']; subst.
    rewrite chunkLoop_cons. cbv zeta.
    assert (Hcand : (if Js.truthy (Js.join Js.nlnl g)
                     then Js.join Js.nlnl g +++ Js.nlnl +++ p else p)
                    = Js.join Js.nlnl (g ++ [p])).
    { destruct g as [|x g]; [reflexivity|].
      rewrite truthy_join by (assumption || discriminate).
      symmetry. apply join_snoc. discriminate. }
    rewrite Hcand.
    replace (g ++ p :: rest) with ((g ++ [p]) ++ rest) in * by now rewrite <- app_assoc.
    pose proof (join_prefix_len (g ++ [p]) rest) as Hle.
    destruct (Z.ltb_spec limit (Js.len (Js.join Js.nlnl (g ++ [p])))) as [?|_]; [lia|].
    apply IH; try assumption.
    apply Forall_app. split; [exact Hg | now constructor].
Qed.

Lemma Packed_truthy (limit : Z) (units chunks : list string) :
  0 < limit ->
  Packed limit units chunks ->
  Forall (fun u => Js.truthy u = true) units ->
  Forall (fun c => Js.truthy c = true) chunks.
Proof.
  intros Hl.
  induction 1 as [|us rest chunks Hus Hfit _ IH|p rest chunks Hp _ IH]; intros Hall.
  - constructor.
  - apply Forall_app in Hall. destruct Hall as [Hu Hr].
    constructor; [now apply truthy_join | now apply IH].
  - inversion Hall; subst. apply Forall_app. split; [|now apply IH].
    destruct (limitSlices_spec limit p Hl) as (_ & Hsl & _).
    eapply Forall_impl; [|exact Hsl]. intros c Hc. cbv beta in Hc.
    apply truthy_len. lia.
Qed.

Lemma Packed_nil_iff (limit : Z) (units chunks : list string) :
  0 < limit -> Packed limit units chunks -> (chunks = [] <-> units = []).
Proof.
  intros Hl H. destruct H as [|us rest chunks Hus _ _|p rest chunks Hp _].
  - tauto.
  - split; [discriminate|]. intros E. apply app_eq_nil in E. tauto.
  - split; [|discriminate]. intros E. apply app_eq_nil in E. destruct E as [E _].
    destruct (limitSlices_spec limit p Hl) as (Hcat & _). rewrite E in Hcat.
    simpl in Hcat. subst p. unfold Js.len in Hp. simpl in Hp. lia.
Qed.

Lemma chunkLoop_never_returns (limit : Z) (parts : list string) :
  limit <= 0 ->
  Exists (fun u => Js.truthy u = true) parts ->
  forall out, chunkLoop limit parts out EmptyString = None.
Proof.
  intros Hl. induction parts as [|p rest IH]; intros Hex out.
  - inversion Hex.
  - rewrite chunkLoop_cons. cbv zeta. cbn [Js.truthy].
    destruct (Js.truthy p) eqn:Hp.
    + apply truthy_len in Hp.
      destruct (Z.ltb_spec limit (Js.len p)) as [_|?]; [|lia].
      unfold forcedSlices. rewrite sliceLoop_diverges by lia. reflexivity.
    + apply truthy_false in Hp. subst p.
      assert (Hrest : Exists (fun u => Js.truthy u = true) rest)
        by (inversion Hex; [discriminate | assumption]).
      change (Js.len EmptyString) with 0.
      destruct (Z.ltb_spec limit 0); [|now apply IH].
      change (forcedSlices EmptyString limit out) with (Some out).
      now apply IH.
Qed.

End ChunkerMore.

(** X12.  A list of non-empty units whose join by blank lines fits the
    limit is packed into exactly one chunk, that join. *)
Theorem units_within_limit_make_one_chunk (parts : list string) (limit : Z) :
  parts <> [] ->
  Forall (fun u => Js.truthy u = true) parts ->
  Js.len (Js.join Js.nlnl parts) <= limit ->
  chunkBySize parts limit = Some [Js.join Js.nlnl parts].
Proof.
  intros Hne Hall Hfit. unfold chunkBySize.
  change EmptyString with (Js.join Js.nlnl []).
  rewrite (chunkLoop_single limit parts [] (Forall_nil _) Hall Hfit).
  cbn [app]. now rewrite truthy_join.
Qed.

Lemma units_within_limit_make_one_chunk_witness :
  chunkBySize (splitPatchByFile Sample.patch) 80000
  = Some [Js.join Js.nlnl (splitPatchByFile Sample.patch)].
Proof.
  apply (units_within_limit_make_one_chunk (splitPatchByFile Sample.patch) 80000).
  - vm_compute. discriminate.
  - vm_compute. repeat constructor.
  - vm_compute. discriminate.
Defined.

(** X13.  With a positive limit and non-empty units, no chunk is the empty
    string, and there is no chunk at all exactly when there is no unit. *)
Theorem chunks_are_never_empty (parts : list string) (limit : Z) :
  0 < limit ->
  Forall (fun u => Js.truthy u = true) parts ->
  exists chunks,
    chunkBySize parts limit = Some chunks /\
    Forall (fun c => c <> EmptyString) chunks /\
    (chunks = [] <-> parts = []).
Proof.
  intros Hl Hall.
  destruct (chunkBySize_packed limit Hl parts Hall) as (chunks & Hrun & Hpk).
  exists chunks. split; [exact Hrun|]. split.
  - eapply Forall_impl; [|apply (Packed_truthy _ _ _ Hl Hpk Hall)].
    intros c Hc. now apply truthy_iff.
  - now apply (Packed_nil_iff limit).
Qed.

Lemma chunks_are_never_empty_witness :
  exists chunks,
    chunkBySize ["abcdefg"; "xy"] 3 = Some chunks /\
    Forall (fun c => c <> EmptyString) chunks /\
    (chunks = [] <-> ["abcdefg"; "xy"] = []).
Proof.
  apply (chunks_are_never_empty ["abcdefg"; "xy"] 3).
  - reflexivity.
  - repeat constructor.
Defined.

(** X14.  With a limit of zero or less, packing never returns as soon as
    one unit is not empty: the slicing loop of that unit does not advance,
    whatever the number of turns it is given.  The turn of the main loop for
    a commit with at least one file unit then never returns either. *)
Theorem nonpositive_limit_never_returns (cfg : Config) (git : Git) (svc : Services)
  (acc : list Item) (m : CommitMeta) (w : World) (parts : list string) (limit : Z) :
  limit <= 0 ->
  (Exists (fun u => Js.truthy u = true) parts ->
   chunkBySize parts limit = None /\
   exists p, In p parts /\ forall fuel out, sliceLoop fuel p limit 0 out = None) /\
  (DIFF_CHUNK_MAX_CHARS cfg = limit ->
   blank (getDiff git (sha m)) = false ->
   splitPatchByFile (getDiff git (sha m)) <> [] ->
   processCommit cfg git svc acc m w = None).
Proof.
  intros Hl.
  assert (Hchunk : forall ps, Exists (fun u => Js.truthy u = true) ps ->
                              chunkBySize ps limit = None).
  { intros ps Hex. unfold chunkBySize.
    now rewrite (chunkLoop_never_returns limit ps Hl Hex). }
  split.
  - intros Hex. split; [now apply Hchunk|].
    apply Exists_exists in Hex. destruct Hex as (p & Hin & Hp).
    exists p. split; [exact Hin|]. intros fuel out.
    apply sliceLoop_diverges; [exact Hl|]. now apply truthy_len.
  - intros Hcfg Hb Hunits. unfold processCommit.
    rewrite emptyPatch_test, Hb. unfold bind at 1. unfold liftOption.
    rewrite Hcfg, Hchunk; [reflexivity|].
    pose proof (splitPatchByFile_nonempty (getDiff git (sha m))) as Hall.
    destruct (splitPatchByFile (getDiff git (sha m))) as [|u us]; [congruence|].
    inversion Hall; subst. now left.
Qed.

Lemma nonpositive_limit_never_returns_witness :
  chunkBySize (splitPatchByFile Sample.patch) 0 = None.
Proof.
  apply (proj1 (nonpositive_limit_never_returns (Sample.config 1) Sample.git
                  Sample.failingService []
                  (metaOf (Sample.config 1) Sample.git [] "x") emptyWorld
                  (splitPatchByFile Sample.patch) 0 (Z.le_refl 0))).
  vm_compute. left. reflexivity.
Defined.

(** ** The pipeline: requests, prompts and the end of the run *)

(** X15.  A generation request resolves only on a status from 200 to 299
    whose body can be read, and the resolved text has no white space around
    it; a transport error and any other status are rejections. *)
Theorem chat_resolves_only_on_success (svc : Services) (reply : NetReply) (text : string) :
  chatOutcome svc reply = Resolved text ->
  Trimmed text /\
  exists status data,
    reply = Http status data /\ 200 <= status < 300 /\
    exists c, jsonOf svc data = JsonText c.
Proof.
  unfold chatOutcome. destruct reply as [e|status data]; [discriminate|].
  destruct (Z.leb_spec 200 status), (Z.ltb_spec status 300); cbn [andb];
    try discriminate.
  destruct (jsonOf svc data) as [e|[c|]] eqn:Ej; [discriminate| |]; intros E;
    injection E as <-.
  - split; [apply trim_idem|]. exists status, data. eauto.
  - split; [reflexivity|]. exists status, data. eauto.
Qed.

Lemma chat_resolves_only_on_success_witness :
  Trimmed "A" /\
  exists status data,
    Http 200 " A " = Http status data /\ 200 <= status < 300 /\
    exists c, jsonOf Sample.failingService data = JsonText c.
Proof.
  apply (chat_resolves_only_on_success Sample.failingService (Http 200 " A ") "A").
  reflexivity.
Defined.

(** Finds a text among the pieces of a concatenation. *)
Ltac contains_tac :=
  repeat first [ apply Contains_refl | apply Contains_prefix | apply Contains_append_r ].

Section PromptFacts.

Lemma commitChunkPrompt_contains (m : CommitMeta) (i total : Z) (patch : string) :
  Contains patch (commitChunkPrompt m i total patch).
Proof. unfold commitChunkPrompt. contains_tac. Qed.



End PromptFacts.

(** X16.  The prompt of the daily merge carries, for every record, its
    summary, its title and its author, and it carries the date label. *)
Theorem dailyMergePrompt_carries_records (cfg : Config) (dateLabel repo : string)
  (items : list Item) :
  Contains dateLabel (dailyMergePrompt cfg dateLabel items repo) /\
  forall it, In it items ->
    Contains (summary it) (dailyMergePrompt cfg dateLabel items repo) /\
    Contains (title (meta it)) (dailyMergePrompt cfg dateLabel items repo) /\
    Contains (author (meta it)) (dailyMergePrompt cfg dateLabel items repo).
Proof.
  split.
  - unfold dailyMergePrompt. cbv zeta. contains_tac.
  - intros it Hin.
    set (line := fun it : Item =>
                   "[" +++ Js.slice (sha (meta it)) 0 7 +++ "] "
                   +++ title (meta it) +++ " — " +++ author (meta it)
                   +++ " — " +++ Js.join ", " (branches (meta it))
                   +++ Js.nl +++ summary it).
    assert (Hline : Contains (line it) (dailyMergePrompt cfg dateLabel items repo)).
    { pose proof (contains_join dailySeparator (line it) (map line items)
                    (in_map line items it Hin)) as Hjoin.
      eapply Contains_trans; [exact Hjoin|].
      unfold dailyMergePrompt. cbv zeta. fold line. contains_tac. }
    repeat split; (eapply Contains_trans; [|exact Hline]); unfold line; contains_tac.
Qed.

Lemma dailyMergePrompt_carries_records_witness :
  let it := {| meta := metaOf (Sample.config 1) Sample.git [] "x"; summary := "A" |} in
  Contains "A" (dailyMergePrompt (Sample.config 1) "2024-01-01" [it] "org/repo").
Proof.
  intros it.
  apply (proj2 (dailyMergePrompt_carries_records (Sample.config 1) "2024-01-01"
                  "org/repo" [it]) it).
  left. reflexivity.
Defined.

Section RequestFacts.

Variable svc : Services.

Lemma summarizeChunks_log (m : CommitMeta) (total : Z) (chunks : list string) :
  forall i acc w,
    exists parts prompts w',
      summarizeChunks svc m total i chunks acc w = Some (acc ++ parts, w') /\
      List.length parts = List.length chunks /\
      chatLog w' = chatLog w ++ prompts /\
      Forall2 Contains chunks prompts /\
      quiet w w'.
Proof.
  induction chunks as [|c rest IH]; intros i acc w.
  - exists [], [], w. rewrite !app_nil_r. repeat split; constructor.
  - cbn [summarizeChunks]. unfold bind at 1. unfold chat at 1.
    set (w1 := {| chatLog := chatLog w ++ [commitChunkPrompt m (i + 1) total c];
                  larkLog := larkLog w; console := console w |}).
    set (r := chatOutcome svc
                (chatReply svc (List.length (chatLog w))
                   (commitChunkPrompt m (i + 1) total c))).
    destruct (IH (i + 1) (acc ++ [partSummary i r]) w1)
      as (parts & prompts & w' & -> & Hlen & Hlog & Hall & Hq & Hq').
    exists (partSummary i r :: parts),
      (commitChunkPrompt m (i + 1) total c :: prompts), w'.
    rewrite <- app_assoc. split; [reflexivity|].
    split; [simpl; now rewrite Hlen|].
    split; [rewrite Hlog; unfold w1; cbn [chatLog]; now rewrite <- app_assoc|].
    split; [constructor; [apply commitChunkPrompt_contains | exact Hall]|].
    split; [rewrite Hq | rewrite Hq']; reflexivity.
Qed.

End RequestFacts.



Section RequestCount.

Variable cfg : Config.
Variable git : Git.
Variable svc : Services.

(** A turn of the commit loop that returns has made the requests of its
    commit and has sent nothing to the webhook. *)
Lemma processCommit_count (acc acc' : list Item) (m : CommitMeta) (w w' : World) :
  processCommit cfg git svc acc m w = Some (acc', w') ->
  List.length (chatLog w')
  = (List.length (chatLog w) + requestsOf cfg git m)%nat /\
  quiet w w'.
Proof.
  unfold requestsOf. destruct (blank (getDiff git (sha m))) eqn:Hb.
  - rewrite (processCommit_blank cfg git svc acc m w Hb).
    intros E. injection E as _ <-. split; [lia | split; reflexivity].
  - destruct (chunkBySize (splitPatchByFile (getDiff git (sha m)))
                (DIFF_CHUNK_MAX_CHARS cfg)) as [chunks|] eqn:Hc.
    + rewrite (processCommit_chunks cfg git svc acc m w chunks Hb Hc).
      destruct (summarizeChunks_log svc m (Z.of_nat (List.length chunks)) chunks 0 [] w)
        as (parts & prompts & w1 & Hs & _ & Hlog & Hall & Hq & Hq').
      cbn [app] in Hs. unfold bind at 1. rewrite Hs. unfold bind at 1. unfold chat at 1.
      unfold ret. intros E. injection E as _ <-. cbn [chatLog].
      apply Forall2_length in Hall. rewrite Hlog, !length_app. simpl.
      split; [lia | split; assumption].
    + unfold processCommit. rewrite emptyPatch_test, Hb.
      unfold bind at 1. unfold liftOption. rewrite Hc. discriminate.
Qed.

Lemma processCommits_count (ms : list CommitMeta) :
  forall acc w items w',
    processCommits cfg git svc acc ms w = Some (items, w') ->
    List.length (chatLog w')
    = (List.length (chatLog w) + list_sum (map (requestsOf cfg git) ms))%nat /\
    quiet w w'.
Proof.
  induction ms as [|m rest IH]; intros acc w items w'.
  - intros E. injection E as _ <-. split; [simpl; lia | split; reflexivity].
  - cbn [processCommits]. unfold bind at 1.
    destruct (processCommit cfg git svc acc m w) as [[acc1 w1]|] eqn:E1;
      [|discriminate].
    intros E2. destruct (processCommit_count _ _ _ _ _ E1) as (Hlen1 & Hq1 & Hq1').
    destruct (IH _ _ _ _ E2) as (Hlen2 & Hq2 & Hq2').
    split; [simpl; lia | split; congruence].
Qed.

Lemma mainFlow_chatLog (metas : list CommitMeta) (w w1 : World) (items : list Item) :
  processCommits cfg git svc [] metas w = Some (items, w1) ->
  exists t w',
    mainFlow cfg git svc metas w = Some (t, w') /\
    chatLog w' = chatLog w1
                 ++ [dailyMergePrompt cfg (todayLabel svc) items
                       (if Js.truthy (REPO cfg) then REPO cfg else "repository")].
Proof.
  intros Hrun. unfold mainFlow. unfold bind at 1. rewrite Hrun.
  unfold bind at 1. unfold chat at 1. unfold postToLark.
  destruct (Js.truthy (LARK_WEBHOOK_URL cfg)).
  - unfold bind, consoleLog, ret. cbn [chatLog larkLog console].
    destruct (larkReply svc _); eexists _, _; split; reflexivity.
  - unfold bind, consoleLog, ret. eexists _, _; split; reflexivity.
Qed.

End RequestCount.

(** X2.  The diff text of a commit has no white space around it, so it is
    blank exactly when it is empty; and the turn of the main loop takes its
    placeholder branch (the record with the placeholder, no request) exactly
    for the commits whose diff text is the empty string. *)
Theorem getDiff_trimmed (cfg : Config) (git : Git) (svc : Services)
  (acc : list Item) (m : CommitMeta) (w : World) :
  Trimmed (getDiff git (sha m)) /\
  (blank (getDiff git (sha m)) = true <-> getDiff git (sha m) = EmptyString) /\
  (negb (Js.truthy (getDiff git (sha m)))
   || negb (Js.truthy (Js.trim (getDiff git (sha m)))) = true
   <-> getDiff git (sha m) = EmptyString) /\
  (processCommit cfg git svc acc m w
   = Some (acc ++ [{| meta := m; summary := emptyDiffSummary |}], w)
   <-> getDiff git (sha m) = EmptyString).
Proof.
  assert (Ht : Trimmed (getDiff git (sha m)))
    by (unfold getDiff, sh; apply trim_idem).
  assert (Hb : blank (getDiff git (sha m)) = true <-> getDiff git (sha m) = EmptyString)
    by (rewrite <- trim_empty_blank; now rewrite Ht).
  split; [exact Ht|]. split; [exact Hb|]. split.
  - rewrite emptyPatch_test. exact Hb.
  - split.
    + intros Hrun. apply Hb.
      destruct (blank (getDiff git (sha m))) eqn:E; [reflexivity|]. exfalso.
      destruct (processCommit_count cfg git svc _ _ _ _ _ Hrun) as [Hlen _].
      unfold requestsOf in Hlen. rewrite E in Hlen.
      destruct (chunkBySize (splitPatchByFile (getDiff git (sha m)))
                  (DIFF_CHUNK_MAX_CHARS cfg)) as [chunks|] eqn:Hc.
      * lia.
      * unfold processCommit in Hrun. rewrite emptyPatch_test, E in Hrun.
        unfold bind at 1 in Hrun. unfold liftOption in Hrun. rewrite Hc in Hrun.
        discriminate Hrun.
    + intros He. apply processCommit_blank. now apply Hb.
Qed.

Lemma getDiff_trimmed_witness :
  let m := metaOf (Sample.config 1) Sample.git
             (shaToBranches (Sample.config 1) Sample.git) "y" in
  processCommit (Sample.config 1) Sample.git Sample.failingService [] m emptyWorld
  = Some ([{| meta := m; summary := emptyDiffSummary |}], emptyWorld).
Proof.
  intros m.
  apply (proj2 (proj2 (proj2 (proj2 (getDiff_trimmed (Sample.config 1) Sample.git
                                       Sample.failingService [] m emptyWorld))))).
  reflexivity.
Defined.

Section RunFacts.

Variable cfg : Config.
Variable git : Git.
Variable svc : Services.

(** What follows the daily request in [mainFlow], for the daily text [daily]. *)
Lemma mainFlow_after_commits (metas : list CommitMeta) (w w1 : World)
  (items : list Item) :
  processCommits cfg git svc [] metas w = Some (items, w1) ->
  quiet w w1 ->
  exists daily t w',
    mainFlow cfg git svc metas w = Some (t, w') /\
    (Js.truthy (LARK_WEBHOOK_URL cfg) = true ->
     larkLog w' = larkLog w ++ [finalMessageOf daily] /\
     (larkReply svc (finalMessageOf daily) = None -> t = Finished) /\
     (larkReply svc (finalMessageOf daily) <> None -> t = Exit 1)) /\
    (Js.truthy (LARK_WEBHOOK_URL cfg) = false ->
     larkLog w' = larkLog w /\ t = Finished /\
     In ("LARK_WEBHOOK_URL 未配置，以下为最终日报文本：" +++ Js.nlnl
         +++ finalMessageOf daily) (console w')).
Proof.
  intros Hrun [Hq Hq'].
  unfold mainFlow. unfold bind at 1. rewrite Hrun.
  unfold bind at 1. unfold chat at 1.
  set (daily := dailyOf items _). exists daily.
  unfold postToLark.
  destruct (Js.truthy (LARK_WEBHOOK_URL cfg)) eqn:Ehook.
  - destruct (larkReply svc (finalMessageOf daily)) as [e|] eqn:Elark.
    + eexists _, _. split;
        [unfold bind, consoleLog, ret; cbn [chatLog larkLog console]; reflexivity|].
      split; [|discriminate]. intros _. cbn [larkLog].
      split; [congruence|]. split; [discriminate | reflexivity].
    + eexists _, _. split;
        [unfold bind, consoleLog, ret; cbn [chatLog larkLog console]; reflexivity|].
      split; [|discriminate]. intros _. cbn [larkLog].
      split; [congruence|]. split; [reflexivity | congruence].
  - eexists _, _. split;
      [unfold bind, consoleLog, ret; cbn [chatLog larkLog console]; reflexivity|].
    split; [discriminate|]. intros _. cbn [larkLog console].
    split; [congruence|]. split; [reflexivity|].
    rewrite !in_app_iff. simpl. tauto.
Qed.

Lemma mainFlow_terminations (metas : list CommitMeta) (w w' : World) (t : Termination) :
  mainFlow cfg git svc metas w = Some (t, w') -> t = Finished \/ t = Exit 1.
Proof.
  unfold mainFlow. unfold bind at 1.
  destruct (processCommits cfg git svc [] metas w) as [[items w1]|]; [|discriminate].
  unfold bind at 1. unfold chat at 1. unfold postToLark.
  destruct (Js.truthy (LARK_WEBHOOK_URL cfg)).
  - unfold bind, consoleLog, ret. cbn [chatLog larkLog console].
    destruct (larkReply svc _); intros E; injection E as <- _; auto.
  - unfold bind, consoleLog, ret. intros E; injection E as <- _; auto.
Qed.

Lemma checks_decide :
  startChecksPass cfg ->
  negb (Js.truthy (OPENAI_API_KEY cfg)) = false /\
  negb (String.eqb (REPO_PATH cfg) ".") && negb (repoPathExists cfg) = false /\
  negb (String.eqb (REPO_PATH cfg) ".") && negb (repoPathHasGit cfg) = false.
Proof.
  intros [Hkey Hpath]. rewrite Hkey. split; [reflexivity|].
  destruct Hpath as [->|[-> ->]].
  - rewrite String.eqb_refl. auto.
  - rewrite !andb_false_r. auto.
Qed.

End RunFacts.

(** X18.  Once the loop over the commits has returned (every diff was read
    and summarised), the main flow returns, whatever the generation service
    answers to the daily request: the final message starts with the
    notification keyword; with a webhook configured it is the one and only
    post of the run, which finishes normally when the delivery succeeds and
    exits with code 1 when it fails; without one it is printed, nothing is
    posted and the run finishes normally. *)
Theorem run_delivers_after_commit_loop (cfg : Config) (git : Git) (svc : Services)
  (metas : list CommitMeta) (w w1 : World) (items : list Item) :
  processCommits cfg git svc [] metas w = Some (items, w1) ->
  exists text t w',
    mainFlow cfg git svc metas w = Some (t, w') /\
    String.prefix notificationKeyword text = true /\
    (Js.truthy (LARK_WEBHOOK_URL cfg) = true ->
     larkLog w' = larkLog w ++ [text] /\
     (larkReply svc text = None -> t = Finished) /\
     (larkReply svc text <> None -> t = Exit 1)) /\
    (Js.truthy (LARK_WEBHOOK_URL cfg) = false ->
     larkLog w' = larkLog w /\ t = Finished /\
     In ("LARK_WEBHOOK_URL 未配置，以下为最终日报文本：" +++ Js.nlnl +++ text)
       (console w')).
Proof.
  intros Hrun.
  destruct (processCommits_count cfg git svc metas [] w items w1 Hrun) as [_ Hq].
  destruct (mainFlow_after_commits cfg git svc metas w w1 items Hrun Hq)
    as (daily & t & w' & Hmain & Hhook & Hprint).
  exists (finalMessageOf daily), t, w'.
  split; [exact Hmain|]. split; [reflexivity|]. split; assumption.
Qed.

Lemma run_delivers_after_commit_loop_witness :
  exists text t w',
    mainFlow (Sample.config 1) Sample.git Sample.deadService
      (commitMetas (Sample.config 1) Sample.git) emptyWorld = Some (t, w') /\
    larkLog w' = [text] /\ t = Finished.
Proof.
  destruct (processCommits (Sample.config 1) Sample.git Sample.deadService []
              (commitMetas (Sample.config 1) Sample.git) emptyWorld)
    as [[items w1]|] eqn:Hloop; [|vm_compute in Hloop; discriminate Hloop].
  destruct (run_delivers_after_commit_loop (Sample.config 1) Sample.git
              Sample.deadService (commitMetas (Sample.config 1) Sample.git)
              emptyWorld w1 items Hloop)
    as (text & t & w' & Hmain & _ & Hhook & _).
  destruct (Hhook eq_refl) as (Hlog & Hok & _).
  exists text, t, w'. split; [exact Hmain|]. split; [exact Hlog|].
  apply Hok. reflexivity.
Defined.

(** X19.  When a start check fails (the credential is missing, or a
    configured repository path does not exist or is not a checkout), the
    run exits with code 1 before any generation request or webhook post. *)
Theorem failed_start_check_exits (cfg : Config) (git : Git) (svc : Services)
  (w : World) :
  ~ startChecksPass cfg ->
  exists w',
    program cfg git svc w = Some (Exit 1, w') /\
    chatLog w' = chatLog w /\ larkLog w' = larkLog w.
Proof.
  intros Hfail. unfold program.
  destruct (Js.truthy (OPENAI_API_KEY cfg)) eqn:Hkey; cbn [negb];
    [|eexists; split; [reflexivity | split; reflexivity]].
  destruct (String.eqb_spec (REPO_PATH cfg) ".") as [Hp|Hp]; cbn [negb andb].
  - exfalso. apply Hfail. split; auto.
  - destruct (repoPathExists cfg) eqn:He; cbn [negb];
      [|eexists; split; [reflexivity | split; reflexivity]].
    destruct (repoPathHasGit cfg) eqn:Hg; cbn [negb];
      [|eexists; split; [reflexivity | split; reflexivity]].
    exfalso. apply Hfail. split; auto.
Qed.

Lemma failed_start_check_exits_witness :
  let cfg := {| OPENAI_API_KEY := EmptyString;
                LARK_WEBHOOK_URL := EmptyString;
                REPO := EmptyString;
                REPO_PATH := ".";
                repoFullPath := "/work";
                repoPathExists := true;
                repoPathHasGit := true;
                PER_BRANCH_LIMIT := 200;
                DIFF_CHUNK_MAX_CHARS := 80000;
                DAYS_BACK := 1;
                DAYS_BACK_text := "1" |} in
  exists w',
    program cfg Sample.git Sample.failingService emptyWorld = Some (Exit 1, w') /\
    chatLog w' = [] /\ larkLog w' = [].
Proof.
  intros cfg.
  apply (failed_start_check_exits cfg Sample.git Sample.failingService emptyWorld).
  intros [Hkey _]. discriminate Hkey.
Defined.

(** X20.  The early exit before any request (the [process.exit(0)] that
    follows the message that no branch has a commit) is taken exactly when
    the start checks pass and the reporting set is empty.  It is not the
    only way to exit status 0: a run that returns ends with status 0 or 1,
    and it ends with status 0 exactly when the start checks pass and either
    the reporting set is empty or the main flow finished normally. *)
Theorem early_exit_only_when_nothing_to_report (cfg : Config) (git : Git)
  (svc : Services) (w : World) :
  ((exists w', program cfg git svc w = Some (Exit 0, w')) <->
   startChecksPass cfg /\ commitShas cfg git = []) /\
  (forall t w',
      program cfg git svc w = Some (t, w') ->
      (exitStatus t = 0 \/ exitStatus t = 1) /\
      (exitStatus t = 0 <->
       startChecksPass cfg /\ (commitShas cfg git = [] \/ t = Finished))).
Proof.
  assert (Hcases : forall t w',
             program cfg git svc w = Some (t, w') ->
             (~ startChecksPass cfg /\ t = Exit 1) \/
             (startChecksPass cfg /\ commitShas cfg git = [] /\ t = Exit 0) \/
             (startChecksPass cfg /\ commitShas cfg git <> [] /\
              (t = Finished \/ t = Exit 1))).
  { intros t w' Hrun. unfold program in Hrun.
    destruct (Js.truthy (OPENAI_API_KEY cfg)) eqn:Hkey; cbn [negb] in Hrun.
    - destruct (String.eqb_spec (REPO_PATH cfg) ".") as [Hp|Hp];
        cbn [negb andb] in Hrun.
      + assert (Hc : startChecksPass cfg) by (split; auto).
        destruct (commitShas cfg git) eqn:Hs.
        * injection Hrun as <- _. right; left. auto.
        * apply mainFlow_terminations in Hrun. right; right.
          split; [exact Hc|]. split; [discriminate | exact Hrun].
      + destruct (repoPathExists cfg) eqn:He; cbn [negb] in Hrun.
        * destruct (repoPathHasGit cfg) eqn:Hg; cbn [negb] in Hrun.
          -- assert (Hc : startChecksPass cfg) by (split; auto).
             destruct (commitShas cfg git) eqn:Hs.
             ++ injection Hrun as <- _. right; left. auto.
             ++ apply mainFlow_terminations in Hrun. right; right.
                split; [exact Hc|]. split; [discriminate | exact Hrun].
          -- injection Hrun as <- _. left. split; [|reflexivity].
             intros [_ [Hq|[_ Hq]]]; congruence.
        * injection Hrun as <- _. left. split; [|reflexivity].
          intros [_ [Hq|[Hq _]]]; congruence.
    - injection Hrun as <- _. left. split; [|reflexivity].
      intros [Hq _]. congruence. }
  split.
  - split.
    + intros (w' & Hrun).
      destruct (Hcases _ _ Hrun) as [[_ E]|[(Hc & Hs & _)|(_ & _ & [E|E])]];
        try discriminate E.
      split; assumption.
    + intros [Hchecks Hnone]. unfold program.
      destruct (checks_decide cfg Hchecks) as (-> & -> & ->). rewrite Hnone.
      eexists. reflexivity.
  - intros t w' Hrun.
    destruct (Hcases _ _ Hrun) as [[Hn ->]|[(Hc & Hs & ->)|(Hc & Hs & [-> | ->])]];
      cbn [exitStatus].
    + split; [now right|]. split; [discriminate | intros [Hc _]; contradiction].
    + split; [now left|]. split; [intros _; split; auto | reflexivity].
    + split; [now left|]. split; [intros _; split; auto | reflexivity].
    + split; [now right|]. split; [discriminate|].
      intros [_ [Hq|Hq]]; [contradiction | discriminate Hq].
Qed.

Lemma early_exit_only_when_nothing_to_report_witness :
  exists w',
    program (Sample.config 200) Sample.quietGit Sample.failingService emptyWorld
    = Some (Exit 0, w').
Proof.
  apply (proj2 (proj1 (early_exit_only_when_nothing_to_report (Sample.config 200)
                         Sample.quietGit Sample.failingService emptyWorld))).
  split; [split; [reflexivity | left; reflexivity] | reflexivity].
Defined.

(** X21.  A diff that is not blank but has no file unit (marker lines only)
    makes no chunk request and exactly one merge request, over an empty
    collection; when that request is rejected the recorded summary is the
    empty string. *)
Theorem patch_without_units (cfg : Config) (git : Git) (svc : Services)
  (acc : list Item) (m : CommitMeta) (w : World) :
  blank (getDiff git (sha m)) = false ->
  splitPatchByFile (getDiff git (sha m)) = [] ->
  exists r w',
    chat svc (commitMergePrompt m []) w = Some (r, w') /\
    chatLog w' = chatLog w ++ [commitMergePrompt m []] /\
    processCommit cfg git svc acc m w
    = Some (acc ++ [{| meta := m;
                       summary := match r with
                                  | Resolved text => text
                                  | Rejected _ => EmptyString
                                  end |}], w').
Proof.
  intros Hb Hunits.
  assert (Hc : chunkBySize (splitPatchByFile (getDiff git (sha m)))
                 (DIFF_CHUNK_MAX_CHARS cfg) = Some [])
    by (rewrite Hunits; reflexivity).
  rewrite (processCommit_chunks cfg git svc acc m w [] Hb Hc).
  eexists _, _. split; [reflexivity|]. split; [reflexivity|].
  cbn [summarizeChunks]. unfold bind at 1. unfold ret at 1. unfold bind at 1.
  unfold chat at 1. unfold ret.
  destruct (chatOutcome svc _); reflexivity.
Qed.

Lemma patch_without_units_witness :
  let m := metaOf (Sample.config 1) Sample.markerOnlyGit
             (shaToBranches (Sample.config 1) Sample.markerOnlyGit) "x" in
  exists w',
    processCommit (Sample.config 1) Sample.markerOnlyGit Sample.deadService [] m
      emptyWorld
    = Some ([{| meta := m; summary := EmptyString |}], w').
Proof.
  intros m.
  destruct (patch_without_units (Sample.config 1) Sample.markerOnlyGit
              Sample.deadService [] m emptyWorld)
    as (r & w' & Hchat & _ & Hrun); [reflexivity | reflexivity |].
  vm_compute in Hchat. injection Hchat as <- <-.
  eexists. exact Hrun.
Defined.

(** X22.  Once the loop over the commits has returned, the run has made,
    in total, for every commit with a diff one request per chunk and one
    merge request, none for a commit with a blank diff, and it makes one
    daily request at the end, over the records of the loop. *)
Theorem run_request_count (cfg : Config) (git : Git) (svc : Services)
  (metas : list CommitMeta) (w w1 : World) (items : list Item) :
  processCommits cfg git svc [] metas w = Some (items, w1) ->
  exists t w',
    mainFlow cfg git svc metas w = Some (t, w') /\
    List.length (chatLog w')
    = (List.length (chatLog w) + list_sum (map (requestsOf cfg git) metas) + 1)%nat /\
    last (chatLog w') EmptyString
    = dailyMergePrompt cfg (todayLabel svc) items
        (if Js.truthy (REPO cfg) then REPO cfg else "repository").
Proof.
  intros Hrun.
  destruct (processCommits_count cfg git svc metas [] w items w1 Hrun) as [Hlen _].
  destruct (mainFlow_chatLog cfg git svc metas w w1 items Hrun)
    as (t & w' & Hmain & Hlog).
  exists t, w'. split; [exact Hmain|]. rewrite Hlog. split.
  - rewrite length_app. simpl. lia.
  - apply last_last.
Qed.

Lemma run_request_count_witness :
  exists t w',
    mainFlow (Sample.config 1) Sample.git Sample.failingService
      (commitMetas (Sample.config 1) Sample.git) emptyWorld = Some (t, w') /\
    List.length (chatLog w') = 3%nat.
Proof.
  destruct (processCommits (Sample.config 1) Sample.git Sample.failingService []
              (commitMetas (Sample.config 1) Sample.git) emptyWorld)
    as [[items w1]|] eqn:Hloop; [|vm_compute in Hloop; discriminate Hloop].
  destruct (run_request_count (Sample.config 1) Sample.git Sample.failingService
              (commitMetas (Sample.config 1) Sample.git) emptyWorld w1 items Hloop)
    as (t & w' & Hmain & Hlen & _).
  exists t, w'. split; [exact Hmain|]. rewrite Hlen. reflexivity.
Defined.

(** X23.  A patch without any marker line is one unit, the trimmed patch,
    or no unit at all when it is blank. *)
Theorem patch_without_marker_lines (patch : string) :
  markerLines patch = [] ->
  splitPatchByFile patch
  = if blank patch then [] else [Js.trim patch].
Proof.
  intros Hnone.
  pose proof (splitMarkers_rebuild patch) as Hre.
  pose proof (proj1 (scan_lengths patch) true EmptyString EmptyString) as Hlen.
  fold (splitMarkers patch) in Hlen. fold (markerLines patch) in Hlen.
  rewrite Hnone in Hre, Hlen.
  destruct (splitMarkers patch) as [|x [|y l]] eqn:E; try discriminate Hlen.
  simpl in Hre. subst x.
  rewrite splitPatchByFile_units, E. cbn [map filter].
  rewrite truthy_trim. now destruct (blank patch).
Qed.

Lemma patch_without_marker_lines_witness :
  splitPatchByFile "  Binary files differ  " = ["Binary files differ"].
Proof.
  apply (patch_without_marker_lines "  Binary files differ  "). reflexivity.
Defined.

(** ** The split: what is dropped are whole marker lines *)

Section MarkerLines.

Lemma lineHead_noLineTerminator (s : string) : noLineTerminator (lineHead s) = true.
Proof.
  induction s as [|c s IH]; [reflexivity|]. cbn [lineHead].
  destruct (Js.isLineTerminator c) eqn:E; [reflexivity|].
  cbn [noLineTerminator]. now rewrite E.
Qed.

Lemma noLineTerminator_append (a b : string) :
  noLineTerminator a = true -> noLineTerminator b = true ->
  noLineTerminator (a +++ b) = true.
Proof.
  induction a as [|c a IH]; intros Ha Hb; [exact Hb|].
  cbn [append noLineTerminator] in *. apply andb_prop in Ha. destruct Ha as [-> Ha].
  now apply IH.
Qed.

Lemma prefix_lineHead (t s : string) :
  noLineTerminator t = true -> String.prefix t s = true ->
  String.prefix t (lineHead s) = true.
Proof.
  revert s. induction t as [|c t IH]; intros s Ht Hp; [now destruct (lineHead s)|].
  destruct s as [|d s]; [discriminate|]. cbn [String.prefix] in Hp.
  destruct (ascii_dec c d) as [<-|]; [|discriminate].
  cbn [noLineTerminator] in Ht. apply andb_prop in Ht. destruct Ht as [Hc Ht].
  apply negb_true_iff in Hc. cbn [lineHead]. rewrite Hc. cbn [String.prefix].
  destruct (ascii_dec c c); [now apply IH | congruence].
Qed.

Lemma scan_marker_lines (s : string) :
  (forall atStart x, Forall MarkerLine (markerLinesFrom false atStart x s)) /\
  (forall atStart mcur,
      exists rest,
        markerLinesFrom true atStart mcur s = (mcur +++ lineHead s) :: rest /\
        Forall MarkerLine rest).
Proof.
  induction s as [|c s [IHa IHb]]; split.
  - intros; constructor.
  - intros. exists []. simpl. rewrite append_nil_r. split; [reflexivity | constructor].
  - intros atStart x. cbn [markerLinesFrom].
    destruct (atStart && String.prefix marker (String c s)) eqn:E; [|apply IHa].
    apply andb_prop in E. destruct E as [_ Hp].
    destruct (IHb false (String c EmptyString)) as (rest & -> & Hrest).
    constructor; [|exact Hrest].
    pose proof (prefix_lineHead marker (String c s) eq_refl Hp) as Hhead.
    cbn [lineHead] in Hhead. destruct (Js.isLineTerminator c) eqn:Ec.
    + discriminate Hhead.
    + split; [exact Hhead|].
      cbn [append noLineTerminator]. rewrite Ec. apply lineHead_noLineTerminator.
  - intros atStart mcur. cbn [markerLinesFrom lineHead].
    destruct (Js.isLineTerminator c) eqn:Ec.
    + exists (markerLinesFrom false true EmptyString s).
      rewrite append_nil_r. split; [reflexivity | apply IHa].
    + destruct (IHb false (mcur +++ String c EmptyString)) as (rest & -> & Hrest).
      exists rest. rewrite append_assoc. split; [reflexivity | exact Hrest].
Qed.

Lemma scan_pieces (s : string) :
  (forall atStart cur,
      exists x rest,
        splitMarkersFrom false atStart cur s = (cur +++ x) :: rest /\
        Forall FollowsLine rest) /\
  (forall atStart,
      exists first rest,
        splitMarkersFrom true atStart EmptyString s = first :: rest /\
        FollowsLine first /\ Forall FollowsLine rest).
Proof.
  induction s as [|c s [IHa IHb]]; split.
  - intros. exists EmptyString, []. simpl. rewrite append_nil_r.
    split; [reflexivity | constructor].
  - intros. exists EmptyString, []. simpl.
    split; [reflexivity|]. split; [now left | constructor].
  - intros atStart cur. cbn [splitMarkersFrom].
    destruct (atStart && String.prefix marker (String c s)).
    + destruct (IHb false) as (first & rest & -> & Hfirst & Hrest).
      exists EmptyString, (first :: rest). rewrite append_nil_r.
      split; [reflexivity | now constructor].
    + destruct (IHa (Js.isLineTerminator c) (cur +++ String c EmptyString))
        as (x & rest & -> & Hrest).
      exists (String c x), rest. rewrite append_assoc. split; [reflexivity | exact Hrest].
  - intros atStart. cbn [splitMarkersFrom].
    destruct (Js.isLineTerminator c) eqn:Ec.
    + destruct (IHa true (String c EmptyString)) as (x & rest & -> & Hrest).
      exists (String c x), rest. split; [reflexivity|].
      split; [right; eauto | exact Hrest].
    + apply IHb.
Qed.

End MarkerLines.

Section LineStarts.

Lemma endsLine_snoc (cur : string) (c : ascii) :
  endsLine (cur +++ String c EmptyString) = Js.isLineTerminator c.
Proof.
  induction cur as [|d r IH]; [reflexivity|].
  destruct r as [|e r']; [reflexivity|]. exact IH.
Qed.

Lemma splitMarkersFrom_nonempty (inMarker atStart : bool) (cur s : string) :
  splitMarkersFrom inMarker atStart cur s <> [].
Proof.
  revert inMarker atStart cur. induction s as [|c s IH]; intros;
    cbn [splitMarkersFrom]; [discriminate|].
  destruct inMarker; [destruct (Js.isLineTerminator c); apply IH|].
  destruct (atStart && String.prefix marker (String c s)); [discriminate | apply IH].
Qed.

Lemma removelast_cons {A : Type} (x : A) (l : list A) :
  l <> [] -> removelast (x :: l) = x :: removelast l.
Proof. destruct l; [congruence | reflexivity]. Qed.

Lemma scan_line_starts (s : string) :
  (forall atStart cur,
      (atStart = true -> endsLine cur = true) ->
      Forall (fun x => endsLine x = true)
        (removelast (splitMarkersFrom false atStart cur s))) /\
  (forall atStart cur,
      Forall (fun x => endsLine x = true)
        (removelast (splitMarkersFrom true atStart cur s))).
Proof.
  induction s as [|c s [IHa IHb]]; split; intros; try constructor.
  - cbn [splitMarkersFrom].
    destruct atStart; cbn [andb].
    + destruct (String.prefix marker (String c s)).
      * rewrite removelast_cons by apply splitMarkersFrom_nonempty.
        constructor; [auto | apply IHb].
      * apply IHa. intros E. now rewrite endsLine_snoc.
    + apply IHa. intros E. now rewrite endsLine_snoc.
  - cbn [splitMarkersFrom]. destruct (Js.isLineTerminator c) eqn:Ec.
    + apply IHa. intros _. exact Ec.
    + apply IHb.
Qed.

End LineStarts.

(** X24.  What the split of a patch drops are whole marker lines: the patch
    is its pieces with the dropped lines put back in between; every dropped
    line starts with the marker and holds no line terminator; every piece
    before a dropped line is empty or ends with a line terminator, and every
    piece after one is empty or starts with the line terminator that ended
    the dropped line. *)
Theorem split_drops_whole_marker_lines (patch : string) :
  interleave (splitMarkers patch) (markerLines patch) = patch /\
  Forall MarkerLine (markerLines patch) /\
  Forall (fun x => endsLine x = true) (removelast (splitMarkers patch)) /\
  Forall FollowsLine (tl (splitMarkers patch)).
Proof.
  split; [apply splitMarkers_rebuild|]. split; [|split].
  - apply (proj1 (scan_marker_lines patch)).
  - apply (proj1 (scan_line_starts patch)). reflexivity.
  - destruct (proj1 (scan_pieces patch) true EmptyString) as (x & rest & E & Hrest).
    unfold splitMarkers. rewrite E. exact Hrest.
Qed.

(** C3, as the code has it.  With a positive limit, split-then-pack returns
    chunks that lay out the file units in their order: each chunk is a run
    of consecutive units joined by a blank line, or one of the slices of a
    unit longer than the limit.  The slices of a unit are its consecutive
    windows of [limit] characters: they concatenate to the unit, every slice
    but the last has exactly [limit] characters, and the last has between 1
    and [limit].  The units are the trimmed, non-empty pieces of the patch
    between its marker lines, and the patch is those untrimmed pieces with
    the marker lines in between, where each marker line is a whole line that
    starts with the marker; neither the marker lines nor the white space
    around a unit are put back. *)
Theorem split_then_pack_keeps_units (patch : string) (limit : Z) :
  0 < limit ->
  (exists chunks,
      chunkBySize (splitPatchByFile patch) limit = Some chunks /\
      Packed limit (splitPatchByFile patch) chunks) /\
  (forall p,
      String.concat EmptyString (limitSlices limit p) = p /\
      Forall (fun c => Js.len c = limit) (removelast (limitSlices limit p)) /\
      Forall (fun c => 0 < Js.len c <= limit) (limitSlices limit p)) /\
  splitPatchByFile patch = filter Js.truthy (map Js.trim (splitMarkers patch)) /\
  interleave (splitMarkers patch) (markerLines patch) = patch /\
  Forall MarkerLine (markerLines patch) /\
  Forall (fun x => endsLine x = true) (removelast (splitMarkers patch)) /\
  Forall FollowsLine (tl (splitMarkers patch)).
Proof.
  intros Hl. split; [|split; [|split; [|split; [|split; [|split]]]]].
  - apply chunkBySize_packed; [exact Hl | apply splitPatchByFile_nonempty].
  - intros p. destruct (limitSlices_spec limit p Hl) as (Hcat & Hall & Hfull).
    split; [exact Hcat|]. split; [exact Hfull | exact Hall].
  - apply splitPatchByFile_units.
  - apply splitMarkers_rebuild.
  - apply (proj1 (scan_marker_lines patch)).
  - apply (proj1 (scan_line_starts patch)). reflexivity.
  - destruct (proj1 (scan_pieces patch) true EmptyString) as (x & rest & E & Hrest).
    unfold splitMarkers. rewrite E. exact Hrest.
Qed.

Lemma split_then_pack_keeps_units_witness :
  (exists chunks,
      chunkBySize (splitPatchByFile Sample.patch) 1 = Some chunks /\
      Packed 1 (splitPatchByFile Sample.patch) chunks) /\
  limitSlices 2 "abcde" = ["ab"; "cd"; "e"] /\
  interleave (splitMarkers Sample.patch) (markerLines Sample.patch) = Sample.patch /\
  Forall MarkerLine (markerLines Sample.patch).
Proof.
  destruct (split_then_pack_keeps_units Sample.patch 1)
    as (Hpk & _ & _ & Hre & Hml & _); [lia|].
  split; [exact Hpk|]. split; [reflexivity|]. split; assumption.
Defined.

(** C3, as stated, fails: the two files of [Sample.patch] fit one chunk, and
    that chunk is not the patch text without its marker lines, since the
    trailing spaces of the line [+x] and the line break after the first
    marker line are gone. *)
Lemma chunks_are_not_the_patch_text : ~ RebuildsPatchText Sample.patch 80000.
Proof.
  intros (chunks & Hrun & Heq).
  vm_compute in Hrun. injection Hrun as <-.
  vm_compute in Heq. discriminate Heq.
Qed.
